(** * sweep.py: a parameter sweep around an external throughput benchmark

    A shallow embedding of [sweep.py] and the proofs of its properties.

    Python values are modelled as follows.
    - [str]: a sequence of Unicode code points ([list N]); string literals of
      the script are written [lit "..."].
    - [int]: [Z] (unbounded).  The optional limit on the number of digits of
      an int/str conversion ([sys.set_int_max_str_digits]) is not modelled.
    - [float]: results of [float(x)] on the readings the pattern matches, as
      exact non-negative binary64 values, see [pyfloat].
    - list objects: addresses into a heap, see [state].
    - exceptions: the type [exn]; a computation that raises keeps the state
      it has reached.

    The benchmark is a parameter of the model, see [subprocess] in
    [Section Sweep].  Standard output is a log of writes that always
    succeed, so [sys.stdout.flush()] changes nothing and is left out.
    [argparse] is not modelled: [main] starts from what
    [p.parse_known_args()] returns.  Signals ([KeyboardInterrupt]) are not
    modelled, so every exception there is derives from [Exception].

    The file has two parts: the definitions (the embedding, then the
    vocabulary of the statements), and the lemmas and theorems. *)

From Stdlib Require Import Ascii String DecimalString.
From Stdlib Require Import ZArith NArith List Lia Bool DecimalPos.
Import ListNotations.
Local Open Scope list_scope.

(** ** Strings *)

(** A character is a code point, a string a list of them. *)
Abbreviation char := N (only parsing).
Abbreviation str := (list N) (only parsing).

Definition lit (s : string) : str := map N_of_ascii (list_ascii_of_string s).
Arguments lit s%_string_scope.

Fixpoint str_eqb (a b : str) : bool :=
  match a, b with
  | [], [] => true
  | x :: a', y :: b' => N.eqb x y && str_eqb a' b'
  | _, _ => false
  end.

(** [s.endswith(suffix)] *)
Definition endswith (s suffix : str) : bool :=
  (length suffix <=? length s)%nat
  && str_eqb (skipn (length s - length suffix) s) suffix.

(** [s[:-1]] *)
Definition drop_last (s : str) : str := firstn (length s - 1) s.

(** [str(n)] for an int [n]. *)
Definition py_str_int (n : Z) : str := lit (NilZero.string_of_int (Z.to_int n)).

(** ** Unicode tables used by [int], [float] and [\d]

    The code points of the decimal digits (category Nd, Unicode 14.0) come in
    runs of ten, digit zero first; [decimal_zeros] lists the zero of each run.
    [Py_UNICODE_TODECIMAL] is [to_decimal]. *)

Definition decimal_zeros : list N :=
  [48; 1632; 1776; 1984; 2406; 2534; 2662; 2790; 2918; 3046; 3174; 3302; 3430;
   3558; 3664; 3792; 3872; 4160; 4240; 6112; 6160; 6470; 6608; 6784; 6800;
   6992; 7088; 7232; 7248; 42528; 43216; 43264; 43472; 43504; 43600; 44016;
   65296; 66720; 68912; 69734; 69872; 69942; 70096; 70384; 70736; 70864;
   71248; 71360; 71472; 71904; 72016; 72784; 73040; 73120; 92768; 92864;
   93008; 120782; 120792; 120802; 120812; 120822; 123200; 123632; 125264;
   130032]%N.

Fixpoint find_decimal (zeros : list N) (c : char) : option N :=
  match zeros with
  | [] => None
  | z :: zeros' =>
      if (z <=? c)%N && (c <? z + 10)%N then Some (c - z)%N
      else find_decimal zeros' c
  end.

Definition to_decimal (c : char) : option N := find_decimal decimal_zeros c.

Definition is_decimal (c : char) : bool :=
  match to_decimal c with Some _ => true | None => false end.

(** The characters [int] skips around a literal: the ASCII white space
    [\t \n \v \f \r] and the space, and the white space beyond ASCII. *)
Definition int_spaces : list N :=
  [9; 10; 11; 12; 13; 32; 133; 160; 5760; 8192; 8193; 8194; 8195; 8196; 8197;
   8198; 8199; 8200; 8201; 8202; 8232; 8233; 8239; 8287; 12288]%N.

Definition is_int_space (c : char) : bool := existsb (N.eqb c) int_spaces.

(** ** Exceptions *)

Inductive exn :=
| Exception (msg : str)            (* raise Exception(msg) *)
| ValueError_int (literal : str)   (* int(literal): invalid literal *)
| ValueError_float (literal : str) (* float(literal): could not convert *)
| ValueError_max                   (* max() of an empty sequence *)
| ProcessError (descr : str)       (* raised by check_output(...).decode(...) *)
| TypeError_not_iterable           (* for ... in None *)
| IndexError_list.                 (* list index out of range *)

(** ** [int(s)] for a string, base 10

    White space, an optional sign, digits with single underscores between
    them, white space. *)

Fixpoint lstrip (s : str) : str :=
  match s with
  | c :: s' => if is_int_space c then lstrip s' else s
  | [] => []
  end.

Inductive scanned := NoPrev | PrevDigit | PrevUnderscore.

Fixpoint scan_digits (prev : scanned) (acc : N) (s : str) : option (N * str) :=
  match s with
  | c :: s' =>
      match to_decimal c with
      | Some d => scan_digits PrevDigit (10 * acc + d) s'
      | None =>
          if (c =? 95)%N then
            match prev with
            | PrevDigit => scan_digits PrevUnderscore acc s'
            | _ => None
            end
          else
            match prev with
            | PrevDigit => Some (acc, s)
            | _ => None
            end
      end
  | [] =>
      match prev with
      | PrevDigit => Some (acc, [])
      | _ => None
      end
  end.

Definition split_sign (s : str) : bool * str :=
  match s with
  | 43%N :: s' => (false, s')
  | 45%N :: s' => (true, s')
  | _ => (false, s)
  end.

Definition py_int (s : str) : option Z :=
  let (neg, body) := split_sign (lstrip s) in
  match scan_digits NoPrev 0 body with
  | Some (n, rest) =>
      match lstrip rest with
      | [] => Some (if neg then - Z.of_N n else Z.of_N n)%Z
      | _ => None
      end
  | None => None
  end.

(** ** [expand_size] *)

Definition int_or_raise (s : str) : exn + Z :=
  match py_int s with
  | Some n => inr n
  | None => inl (ValueError_int s)
  end.

Definition expand_size (size : str) : exn + Z :=
  if endswith size (lit "M") then
    match int_or_raise (drop_last size) with
    | inr n => inr (n * 1024 * 1024)%Z
    | inl e => inl e
    end
  else if endswith size (lit "K") then
    match int_or_raise (drop_last size) with
    | inr n => inr (n * 1024)%Z
    | inl e => inl e
    end
  else int_or_raise size.

(** ** Regular expressions: the part of [re] the script uses

    A pattern is a sequence of nodes: one character of a class, a greedy
    repetition [+] of a class, and the parentheses of a capturing group.
    Matching backtracks: [a+] first takes the longest run and gives
    characters back one at a time while the rest of the pattern fails. *)

Inductive atom :=
| Char (c : char)   (* a literal character *)
| Digit.            (* \d *)

Inductive node :=
| One (a : atom)
| Plus (a : atom)
| Open               (* ( *)
| Close.             (* ) *)

Definition regex := list node.

Definition atom_matches (a : atom) (c : char) : bool :=
  match a with
  | Char x => (c =? x)%N
  | Digit => is_decimal c
  end.

Fixpoint count_while (a : atom) (s : str) : nat :=
  match s with
  | c :: s' => if atom_matches a c then S (count_while a s') else 0
  | [] => 0
  end.

Fixpoint backtrack {A} (attempt : nat -> option A) (n : nat) : option A :=
  match n with
  | 0 => None
  | S n' =>
      match attempt n with
      | Some r => Some r
      | None => backtrack attempt n'
      end
  end.

(** [match_here r s pos gs ge]: match [r] at the head of [s], which is at
    offset [pos] from the start of the match; [gs] and [ge] are the offsets
    of the group recorded so far.  Returns the end of the match and the
    offsets of the group. *)
Fixpoint match_here (r : regex) (s : str) (pos gs ge : nat)
  : option (nat * nat * nat) :=
  match r with
  | [] => Some (pos, gs, ge)
  | One a :: r' =>
      match s with
      | c :: s' =>
          if atom_matches a c then match_here r' s' (S pos) gs ge else None
      | [] => None
      end
  | Plus a :: r' =>
      backtrack (fun k => match_here r' (skipn k s) (pos + k) gs ge)
                (count_while a s)
  | Open :: r' => match_here r' s pos pos ge
  | Close :: r' => match_here r' s pos gs pos
  end.

(** [findall] for a pattern with one group: scan from the left; where the
    pattern matches, keep the text of the group and go on after the match
    ([skip] counts the characters of the last match still to pass). *)
Fixpoint findall_from (r : regex) (s : str) (skip : nat) : list str :=
  match s with
  | [] =>
      match skip, match_here r [] 0 0 0 with
      | 0, Some (_, gs, ge) => [firstn (ge - gs) (skipn gs [])]
      | _, _ => []
      end
  | _ :: s' =>
      match skip with
      | S k => findall_from r s' k
      | 0 =>
          match match_here r s 0 0 0 with
          | Some (e, gs, ge) =>
              firstn (ge - gs) (skipn gs s) :: findall_from r s' (e - 1)
          | None => findall_from r s' 0
          end
      end
  end.

Definition findall (r : regex) (s : str) : list str := findall_from r s 0.

Definition literal (s : str) : regex := map (fun c => One (Char c)) s.

(** [re.compile(r" (\d+\.\d+)MiB/s")] *)
Definition THROUGHPUT_RE : regex :=
  literal (lit " ") ++ [Open; Plus Digit] ++ literal (lit ".")
  ++ [Plus Digit; Close] ++ literal (lit "MiB/s").

(** ** Floats

    [float(x)] for a reading is never negative, and every non-negative
    finite binary64 value is a multiple of 2^-1074: [Finite m] is the value
    m * 2^-1074.  A reading too large for binary64 becomes [Infinity]. *)

Inductive pyfloat :=
| Finite (units : N)
| Infinity.

(** [a > b] *)
Definition float_gt (a b : pyfloat) : bool :=
  match a, b with
  | Finite x, Finite y => (y <? x)%N
  | Infinity, Finite _ => true
  | _, Infinity => false
  end.

Definition float_le (a b : pyfloat) : Prop := float_gt a b = false.

(** The binary64 value nearest to [n / 10^k], ties to even: with [s] the
    number of bits below the 53 significant ones, round [n * 2^1074 / 10^k]
    to a multiple of [2^s]. *)
Definition round_decimal (n : N) (k : nat) : pyfloat :=
  let a := (n * 2 ^ 1074)%N in
  let b := (10 ^ N.of_nat k)%N in
  let s := (N.log2 (a / b) - 52)%N in
  let d := (b * 2 ^ s)%N in
  let q := (a / d)%N in
  let r := (a mod d)%N in
  let q' := if (2 * r <? d)%N then q
            else if (2 * r =? d)%N then (if N.even q then q else q + 1)%N
            else (q + 1)%N in
  let m := (q' * 2 ^ s)%N in
  if (m <? 2 ^ 2098)%N then Finite m else Infinity.

(** Read decimal digits: the number read after [acc], how many digits, and
    the rest of the string. *)
Fixpoint read_digits (acc : N) (s : str) : N * nat * str :=
  match s with
  | c :: s' =>
      match to_decimal c with
      | Some d =>
          let '(n, k, rest) := read_digits (10 * acc + d) s' in (n, S k, rest)
      | None => (acc, 0, s)
      end
  | [] => (acc, 0, [])
  end.

(** [float(s)] on the strings the script passes to it: digits, a point,
    digits.  ([float] accepts more than that; [None] stands for every other
    string, and no such string reaches [float], see [findall_readings].) *)
Definition py_float (s : str) : option pyfloat :=
  match read_digits 0 s with
  | (_, 0, _) => None
  | (i, _, 46%N :: s') =>
      match read_digits i s' with
      | (_, 0, _) => None
      | (n, k, []) => Some (round_decimal n k)
      | _ => None
      end
  | _ => None
  end.

(** [max(xs)]: the first of the largest elements. *)
Definition py_max (xs : list pyfloat) : option pyfloat :=
  match xs with
  | [] => None
  | x :: xs' =>
      Some (fold_left (fun m y => if float_gt y m then y else m) xs' x)
  end.

(** ** The state of a run, and computations

    List objects live in a heap and are passed by address: [heap] maps an
    address (an index) to the elements of the list stored there.  [stdout]
    holds what was written, one entry per [write] or [print]; [calls] holds
    the argument list of every [subprocess.check_output] call so far. *)

Definition loc := nat.

(** A formatted text: literal text, and the conversions that are left
    symbolic, [repr] of a float and [%.200R] of a string. *)
Inductive piece :=
| Text (s : str)
| FloatRepr (f : pyfloat)
| StrRepr (s : str).

Record state := mkState {
  heap : list (list str);
  stdout : list (list piece);
  calls : list (list str)
}.

Definition initial_state : state := mkState [] [] [].

(** A computation runs from a state to a state and raises or returns. *)
Definition M (A : Type) : Type := state -> state * (exn + A).

Definition ret {A} (x : A) : M A := fun st => (st, inr x).

Definition bind {A B} (c : M A) (k : A -> M B) : M B :=
  fun st =>
    match c st with
    | (st', inr x) => k x st'
    | (st', inl e) => (st', inl e)
    end.

Definition raise {A} (e : exn) : M A := fun st => (st, inl e).

Definition lift {A} (r : exn + A) : M A := fun st => (st, r).

(** [try: body / except Exception as e: handler]; every exception of [exn]
    is an [Exception]. *)
Definition try_except {A} (body : M A) (handler : exn -> M A) : M A :=
  fun st =>
    match body st with
    | (st', inl e) => handler e st'
    | done => done
    end.

Notation "x <- c ;; k" := (bind c (fun x => k))
  (at level 61, c at next level, right associativity).
Notation "c ;; k" := (bind c (fun _ => k))
  (at level 61, right associativity).

(** The elements of the list at an address. *)
Definition deref (l : loc) : M (list str) :=
  fun st => (st, inr (nth l (heap st) [])).

(** A new list object. *)
Definition new_list (v : list str) : M loc :=
  fun st =>
    (mkState (heap st ++ [v]) (stdout st) (calls st), inr (length (heap st))).

(** [l[i]] *)
Definition index (l : loc) (i : nat) : M str :=
  v <- deref l ;;
  match nth_error v i with
  | Some x => ret x
  | None => raise IndexError_list
  end.

(** [l[i:]], a new list *)
Definition slice_from (l : loc) (i : nat) : M loc :=
  v <- deref l ;; new_list (skipn i v).

(** [sys.stdout.write(text)] *)
Definition write (text : list piece) : M unit :=
  fun st => (mkState (heap st) (stdout st ++ [text]) (calls st), inr tt).

Definition tab : str := [9%N].
Definition newline : str := [10%N].

(** [print(text)] *)
Definition print (text : list piece) : M unit :=
  write (text ++ [Text newline]).

(** [for x in xs: body] *)
Fixpoint for_each {A} (xs : list A) (body : A -> M unit) : M unit :=
  match xs with
  | [] => ret tt
  | x :: xs' => body x ;; for_each xs' body
  end.

(** [for x in xs: body] where [xs] may be [None]. *)
Definition for_in {A} (xs : option (list A)) (body : A -> M unit) : M unit :=
  match xs with
  | Some l => for_each l body
  | None => raise TypeError_not_iterable
  end.

(** [str(e)] *)
Definition str_exn (e : exn) : list piece :=
  match e with
  | Exception msg => [Text msg]
  | ValueError_int l =>
      [Text (lit "invalid literal for int() with base 10: "); StrRepr l]
  | ValueError_float l =>
      [Text (lit "could not convert string to float: "); StrRepr l]
  | ValueError_max => [Text (lit "max() arg is an empty sequence")]
  | ProcessError descr => [Text descr]
  | TypeError_not_iterable => [Text (lit "'NoneType' object is not iterable")]
  | IndexError_list => [Text (lit "list index out of range")]
  end.

(** The attributes of [args] that the script reads; an option that is not
    on the command line is [None]. *)
Record Namespace := mkNamespace {
  part_size : option (list str);
  connections_per_vip : option (list Z)
}.

(** Lines 17 to 21 of [run_once]: from the captured text to the result. *)
Fixpoint floats (m : list str) : exn + list pyfloat :=
  match m with
  | [] => inr []
  | x :: m' =>
      match py_float x with
      | None => inl (ValueError_float x)
      | Some f =>
          match floats m' with
          | inr fs => inr (f :: fs)
          | inl e => inl e
          end
      end
  end.

Definition parse_throughput (out : str) : exn + pyfloat :=
  let m := findall THROUGHPUT_RE out in
  match m with
  | [] => inl (Exception (lit "No throughput found"))
  | _ =>
      match floats m with
      | inl e => inl e
      | inr fs =>
          match py_max fs with
          | Some throughput => inr throughput
          | None => inl ValueError_max
          end
      end
  end.

Section Sweep.

(** The benchmark and its environment: what
    [subprocess.check_output(cmd).decode("utf-8")] does for the argument
    list [cmd] after the calls made so far, the captured text ([inr]) or the
    description of the exception it raises ([inl]) when the command cannot
    be run, exits with a non-zero status, or prints bytes that are not
    UTF-8. *)
Variable subprocess : list (list str) -> list str -> str + str.

Definition check_output_decode (cmd : loc) : M str :=
  fun st =>
    let argv := nth cmd (heap st) [] in
    let st' := mkState (heap st) (stdout st) (calls st ++ [argv]) in
    match subprocess (calls st) argv with
    | inr out => (st', inr out)
    | inl descr => (st', inl (ProcessError descr))
    end.

Definition run_once (cmd : loc) (part_size connections_per_vip : Z)
  : M pyfloat :=
  template <- deref cmd ;;
  cmd <- new_list (template ++ [lit "--part-size"; py_str_int part_size;
                               lit "--connections-per-vip";
                               py_str_int connections_per_vip]) ;;
  out <- check_output_decode cmd ;;
  lift (parse_throughput out).

(** The body of the loops of [run_sweep]. *)
Definition trial (cmd : loc) (part_size : str) (connections_per_vip : Z)
  : M unit :=
  write [Text (part_size ++ tab ++ py_str_int connections_per_vip ++ tab)] ;;
  try_except
    (size <- lift (expand_size part_size) ;;
     throughput <- run_once cmd size connections_per_vip ;;
     print [FloatRepr throughput])
    (fun e => print ([Text (lit "failed (")] ++ str_exn e ++ [Text (lit ")")])).

Definition run_sweep (args : Namespace) (cmd : loc) : M unit :=
  print [Text (lit "part size" ++ tab ++ lit "connections per vip" ++ tab
               ++ lit "max throughput")] ;;
  for_in (part_size args) (fun part_size =>
    for_in (connections_per_vip args) (fun connections_per_vip =>
      trial cmd part_size connections_per_vip)).

(** [main], from the result [(args, cmd)] of [p.parse_known_args()] on. *)
Definition main (parsed : Namespace * list str) : M unit :=
  let (args, extras) := parsed in
  cmd <- new_list extras ;;
  first <- index cmd 0 ;;
  if negb (str_eqb first (lit "--")) then
    raise (Exception (lit "missing remaining args"))
  else
    rest <- slice_from cmd 1 ;;
    run_sweep args rest.

End Sweep.

(** ** Vocabulary of the statements: what a sweep writes *)

(** The two flags of a trial. *)
Definition flags (part_size connections_per_vip : Z) : list str :=
  [lit "--part-size"; py_str_int part_size;
   lit "--connections-per-vip"; py_str_int connections_per_vip].

(** The header line. *)
Definition header : list piece :=
  [Text (lit "part size" ++ tab ++ lit "connections per vip" ++ tab
         ++ lit "max throughput");
   Text newline].

(** The start of a row: the token and the connection count. *)
Definition row_prefix (part_size : str) (connections_per_vip : Z)
  : list piece :=
  [Text (part_size ++ tab ++ py_str_int connections_per_vip ++ tab)].

(** The end of the row of a failed trial. *)
Definition failed_line (e : exn) : list piece :=
  ([Text (lit "failed (")] ++ str_exn e ++ [Text (lit ")")]) ++ [Text newline].

(** The end of the row of a successful trial. *)
Definition throughput_line (throughput : pyfloat) : list piece :=
  [FloatRepr throughput] ++ [Text newline].

(** ** Vocabulary of the statements: size tokens *)




(** The token without one trailing [M] or [K], if it has one. *)
Definition strip_unit (s : str) : str :=
  if endswith s (lit "M") || endswith s (lit "K") then drop_last s else s.

(** The integer literals [int] accepts. *)

(** Digits with single underscores between them. *)
Inductive digit_run : str -> Prop :=
| run_digit c : is_decimal c = true -> digit_run [c]
| run_next c s : is_decimal c = true -> digit_run s -> digit_run (c :: s)
| run_under c s :
    is_decimal c = true -> digit_run s -> digit_run (c :: 95%N :: s).

Definition all_spaces (s : str) : Prop :=
  Forall (fun c => is_int_space c = true) s.

(** White space, an optional sign, a digit run, white space. *)
Definition int_literal (s : str) : Prop :=
  exists ws1 sign body ws2,
    s = ws1 ++ sign ++ body ++ ws2 /\
    all_spaces ws1 /\
    (sign = [] \/ sign = [43%N] \/ sign = [45%N]) /\
    digit_run body /\
    all_spaces ws2.

(** What [scan_digits] has consumed when it stops. *)
Definition scanned_part (prev : scanned) (b : str) : Prop :=
  match prev with
  | PrevDigit =>
      b = [] \/ digit_run b \/ exists b', b = 95%N :: b' /\ digit_run b'
  | _ => digit_run b
  end.

(** Where a digit run may end: at the end of the string, or before a
    character that is neither a digit nor an underscore. *)
Definition stops (rest : str) : Prop :=
  match rest with
  | [] => True
  | c :: _ => to_decimal c = None /\ c <> 95%N
  end.

(** The characters an integer literal is made of. *)
Definition int_char (c : char) : Prop :=
  is_int_space c = true \/ c = 43%N \/ c = 45%N \/ c = 95%N
  \/ is_decimal c = true.

(** ** Vocabulary of the statements: the throughput pattern *)

(** One or more decimal digits. *)
Definition digits (d : str) : Prop :=
  d <> [] /\ Forall (fun c => is_decimal c = true) d.

(** A reading: digits, a decimal point, digits. *)
Definition reading (x : str) : Prop :=
  exists d1 d2, digits d1 /\ digits d2 /\ x = d1 ++ lit "." ++ d2.

(** The number that the decimal digits [d] denote after [acc]. *)
Definition decimal_fold (acc : N) (d : str) : N :=
  fold_left
    (fun a c => 10 * a + match to_decimal c with Some v => v | None => 0 end)%N
    d acc.

(** The text the pattern matches for the reading [x]. *)
Definition throughput_text (x : str) : str := lit " " ++ x ++ lit "MiB/s".

Definition occurs (w out : str) : Prop :=
  exists pre post, out = pre ++ w ++ post.

(** The text has a substring that the pattern matches. *)
Definition has_reading (out : str) : Prop :=
  exists x, reading x /\ occurs (throughput_text x) out.

(** The next character, if any, is not of the class [a]. *)
Definition not_next (a : atom) (s : str) : Prop :=
  match s with
  | [] => True
  | c :: _ => atom_matches a c = false
  end.

(** ** Vocabulary of the statements: rows and commands *)

(** The line that ends the row of a trial. *)
Definition result_line (o : exn + pyfloat) : list piece :=
  match o with
  | inr throughput => throughput_line throughput
  | inl e => failed_line e
  end.

(** The two writes of a trial. *)
Definition row (trial : str * Z) (o : exn + pyfloat) : list (list piece) :=
  [row_prefix (fst trial) (snd trial); result_line o].

(** The commands a trial invokes: one if its token expands, none if not. *)
Definition invoked (template : list str) (part_size : str)
    (connections_per_vip : Z) : list (list str) :=
  match expand_size part_size with
  | inr size => [template ++ flags size connections_per_vip]
  | inl _ => []
  end.

Definition commands (template : list str) (trials : list (str * Z))
  : list (list str) :=
  flat_map (fun t => invoked template (fst t) (snd t)) trials.

(** ** Sample environments and states *)

(** A benchmark that prints three readings, the largest in the middle. *)
Definition bench_three : list (list str) -> list str -> str + str :=
  fun _ _ => inr (lit " 1.5MiB/s 3.25MiB/s 2.0MiB/s").

(** The benchmark of the end-to-end example: two readings on every run. *)
Definition bench_two : list (list str) -> list str -> str + str :=
  fun _ _ => inr (lit "... 123.45MiB/s ... 200.00MiB/s").

(** A benchmark that prints figures the pattern does not match. *)
Definition bench_integer : list (list str) -> list str -> str + str :=
  fun _ _ => inr (lit "100MiB/s").


(** A state in which address 0 holds the command template. *)
Definition sample_state : state := mkState [[lit "download_crt"]] [] [].

(** The state after the header is printed. *)
Definition with_header (st : state) : state :=
  mkState (heap st) (stdout st ++ [header]) (calls st).


(** A run whose first size token is malformed. *)
Definition malformed_run : state * (exn + unit) :=
  main bench_three
    (mkNamespace (Some [lit "12x"; lit "1M"]) (Some [10]%Z),
     [lit "--"; lit "download_crt"]) initial_state.

(** ** Vocabulary of the statements: trials and sweeps in closed form *)

Section SweepSpec.

Variable subprocess : list (list str) -> list str -> str + str.

(** What a trial comes to, after the calls in [history]. *)
Definition outcome (template : list str) (part_size : str)
    (connections_per_vip : Z) (history : list (list str)) : exn + pyfloat :=
  match expand_size part_size with
  | inl e => inl e
  | inr size =>
      match subprocess history (template ++ flags size connections_per_vip) with
      | inr out => parse_throughput out
      | inl descr => inl (ProcessError descr)
      end
  end.

Fixpoint outcomes (template : list str) (trials : list (str * Z))
    (history : list (list str)) : list (exn + pyfloat) :=
  match trials with
  | [] => []
  | (p, c) :: rest =>
      outcome template p c history
      :: outcomes template rest (history ++ invoked template p c)
  end.

Definition rows (template : list str) (trials : list (str * Z))
    (history : list (list str)) : list (list piece) :=
  flat_map (fun to => row (fst to) (snd to))
           (combine trials (outcomes template trials history)).

Definition after_trial (template : list str) (p : str) (c : Z) (st : state)
  : state :=
  mkState (heap st ++ invoked template p c)
          (stdout st ++ row (p, c) (outcome template p c (calls st)))
          (calls st ++ invoked template p c).

Definition after_trials (template : list str) (trials : list (str * Z))
    (st : state) : state :=
  fold_left (fun st t => after_trial template (fst t) (snd t) st) trials st.

End SweepSpec.

(** ** Facts about strings *)

Lemma str_eqb_eq a b : str_eqb a b = true <-> a = b.
Proof.
  revert b; induction a as [|x a IH]; intros [|y b]; simpl;
    try (split; [discriminate | congruence]); try tauto.
  rewrite andb_true_iff, N.eqb_eq, IH. split.
  - intros [-> ->]; reflexivity.
  - intros E; injection E; auto.
Qed.



Lemma drop_last_app p c : drop_last (p ++ [c]) = p.
Proof.
  unfold drop_last. rewrite length_app; simpl.
  replace (length p + 1 - 1)%nat with (length p + 0)%nat by lia.
  rewrite firstn_app_2; simpl. apply app_nil_r.
Qed.

(** ** Facts about the character tables *)

Lemma find_decimal_range zeros c d :
  find_decimal zeros c = Some d ->
  exists z, In z zeros /\ (z <= c < z + 10)%N /\ d = (c - z)%N.
Proof.
  induction zeros as [|z zeros IH]; simpl; [discriminate|].
  destruct ((z <=? c)%N && (c <? z + 10)%N) eqn:E.
  - intros [= <-]. apply andb_true_iff in E. destruct E as [E1 E2].
    apply N.leb_le in E1. apply N.ltb_lt in E2. exists z; auto.
  - intros H. destruct (IH H) as (z' & Hin & Hr). exists z'; auto.
Qed.

Lemma to_decimal_lt c d : to_decimal c = Some d -> (d < 10)%N.
Proof.
  intros H. apply find_decimal_range in H. destruct H as (z & _ & Hr & ->). lia.
Qed.


Lemma int_space_In c : is_int_space c = true <-> In c int_spaces.
Proof.
  unfold is_int_space. rewrite existsb_exists. split.
  - intros (x & Hin & E). apply N.eqb_eq in E. subst; assumption.
  - intros Hin. exists c. split; [assumption | apply N.eqb_refl].
Qed.

(** No white-space character is a decimal digit, a sign or an underscore. *)
Lemma int_space_not_decimal c : is_int_space c = true -> to_decimal c = None.
Proof.
  rewrite int_space_In. unfold int_spaces. intros H.
  repeat (destruct H as [<-|H]; [vm_compute; reflexivity|]). destruct H.
Qed.

Lemma int_space_not_mark c :
  is_int_space c = true -> c <> 43%N /\ c <> 45%N /\ c <> 95%N.
Proof.
  rewrite int_space_In. unfold int_spaces. intros H.
  repeat (destruct H as [<-|H]; [repeat split; discriminate|]). destruct H.
Qed.

(** An ASCII character that is a decimal digit is one of [0] to [9]. *)
Lemma to_decimal_below_128 c d :
  to_decimal c = Some d -> (c < 128)%N -> (48 <= c <= 57)%N.
Proof.
  intros H Hc. apply find_decimal_range in H.
  destruct H as (z & Hin & Hr & _). unfold decimal_zeros in Hin.
  destruct Hin as [<-|Hin]; [lia|].
  exfalso. repeat (destruct Hin as [<-|Hin]; [lia|]). destruct Hin.
Qed.

(** ** [int] accepts exactly the integer literals *)

Lemma is_decimal_true c :
  is_decimal c = true <-> exists d, to_decimal c = Some d.
Proof.
  unfold is_decimal. destruct (to_decimal c) as [d|].
  - split; eauto.
  - split; [discriminate | intros [d H]; discriminate].
Qed.

Lemma decimal_not_space c : is_decimal c = true -> is_int_space c = false.
Proof.
  intros H. destruct (is_int_space c) eqn:E; [|reflexivity].
  apply int_space_not_decimal in E. unfold is_decimal in H.
  rewrite E in H. discriminate.
Qed.

Lemma decimal_not_mark c :
  is_decimal c = true -> c <> 43%N /\ c <> 45%N /\ c <> 95%N.
Proof.
  intros H. repeat split; intros ->; vm_compute in H; discriminate.
Qed.

Lemma lstrip_spec s :
  exists ws, s = ws ++ lstrip s /\ all_spaces ws.
Proof.
  induction s as [|c s (ws & E & Hws)]; simpl.
  - exists []. split; [reflexivity | constructor].
  - destruct (is_int_space c) eqn:Ec.
    + exists (c :: ws). split; [simpl; congruence | constructor; assumption].
    + exists []. split; [reflexivity | constructor].
Qed.

Lemma lstrip_spaces ws s : all_spaces ws -> lstrip (ws ++ s) = lstrip s.
Proof.
  induction 1 as [|c ws Hc _ IH]; simpl; [reflexivity|].
  rewrite Hc. assumption.
Qed.

Lemma lstrip_nil s : lstrip s = [] <-> all_spaces s.
Proof.
  split.
  - intros H. destruct (lstrip_spec s) as (ws & E & Hws).
    rewrite H, app_nil_r in E. subst; assumption.
  - intros H. rewrite <- (app_nil_r s). rewrite lstrip_spaces; auto.
Qed.

Lemma lstrip_head c s : is_int_space c = false -> lstrip (c :: s) = c :: s.
Proof. intros H; simpl; rewrite H; reflexivity. Qed.

Lemma scan_digits_sound s : forall prev acc n rest,
  scan_digits prev acc s = Some (n, rest) ->
  exists b, s = b ++ rest /\ scanned_part prev b.
Proof.
  induction s as [|c s IH]; intros prev acc n rest; simpl.
  - destruct prev; try discriminate. intros [= <- <-].
    exists []. split; [reflexivity | left; reflexivity].
  - destruct (to_decimal c) as [d|] eqn:Ed.
    + intros H. apply IH in H. destruct H as (b & -> & Hb).
      exists (c :: b). split; [reflexivity|].
      assert (Hc : is_decimal c = true) by (apply is_decimal_true; eauto).
      assert (Hrun : digit_run (c :: b)).
      { simpl in Hb. destruct Hb as [->|[Hb|(b' & -> & Hb)]].
        - now constructor.
        - now apply run_next.
        - now apply run_under. }
      destruct prev; simpl; auto.
    + destruct (N.eqb_spec c 95) as [->|Hne].
      * destruct prev; try discriminate. intros H. apply IH in H.
        destruct H as (b & -> & Hb). exists (95%N :: b).
        split; [reflexivity|]. simpl in *. right; right. eauto.
      * destruct prev; try discriminate. intros [= <- <-].
        exists []. split; [reflexivity | left; reflexivity].
Qed.

Lemma scan_digits_stop acc rest :
  stops rest -> scan_digits PrevDigit acc rest = Some (acc, rest).
Proof.
  destruct rest as [|c rest]; simpl; [reflexivity|].
  intros [-> Hne]. apply N.eqb_neq in Hne. rewrite Hne. reflexivity.
Qed.

Lemma scan_digits_complete b : digit_run b -> forall prev acc rest,
  stops rest -> exists n, scan_digits prev acc (b ++ rest) = Some (n, rest).
Proof.
  induction 1 as [c Hc|c s Hc _ IH|c s Hc _ IH]; intros prev acc rest Hrest;
    apply is_decimal_true in Hc; destruct Hc as [d Hd]; simpl; rewrite Hd.
  - rewrite scan_digits_stop by assumption. eauto.
  - apply IH; assumption.
  - assert (E : to_decimal 95%N = None) by (vm_compute; reflexivity).
    clear E. apply IH; assumption.
Qed.

Lemma spaces_stop ws : all_spaces ws -> stops ws.
Proof.
  destruct 1 as [|c ws Hc _]; simpl; [exact I|].
  split; [apply int_space_not_decimal | apply int_space_not_mark]; assumption.
Qed.

Lemma digit_run_head b :
  digit_run b -> exists c b', b = c :: b' /\ is_decimal c = true.
Proof. destruct 1; eauto. Qed.

Lemma split_sign_other c s :
  c <> 43%N -> c <> 45%N -> split_sign (c :: s) = (false, c :: s).
Proof.
  intros H43 H45. unfold split_sign. destruct c as [|p]; [reflexivity|].
  do 6 (destruct p as [p|p|]; try reflexivity); congruence.
Qed.

Lemma split_sign_spec s :
  exists sign, s = sign ++ snd (split_sign s) /\
               (sign = [] \/ sign = [43%N] \/ sign = [45%N]).
Proof.
  destruct s as [|c s]; [exists []; auto|].
  destruct (N.eq_dec c 43) as [->|H43]; [exists [43%N]; auto|].
  destruct (N.eq_dec c 45) as [->|H45]; [exists [45%N]; auto|].
  exists []. rewrite split_sign_other by assumption. auto.
Qed.

(** [int] accepts exactly the integer literals. *)
Lemma py_int_literal s : (exists n, py_int s = Some n) <-> int_literal s.
Proof.
  unfold py_int. split.
  - intros [n H].
    destruct (lstrip_spec s) as (ws1 & Es & Hws1).
    destruct (split_sign_spec (lstrip s)) as (sign & Esign & Hsign).
    destruct (split_sign (lstrip s)) as [neg body]. simpl in Esign.
    destruct (scan_digits NoPrev 0 body) as [[m rest]|] eqn:Escan;
      [|discriminate].
    apply scan_digits_sound in Escan. destruct Escan as (b & -> & Hb).
    destruct (lstrip rest) eqn:Erest; [|discriminate].
    apply lstrip_nil in Erest.
    exists ws1, sign, b, rest. rewrite <- Esign. auto.
  - intros (ws1 & sign & body & ws2 & -> & Hws1 & Hsign & Hbody & Hws2).
    rewrite lstrip_spaces by assumption.
    destruct (digit_run_head body Hbody) as (c & b' & Eb & Hc).
    pose proof (decimal_not_space c Hc) as Hsp.
    pose proof (decimal_not_mark c Hc) as (H43 & H45 & _).
    assert (E : split_sign (lstrip (sign ++ body ++ ws2))
                = (match sign with [45%N] => true | _ => false end,
                   body ++ ws2)).
    { destruct Hsign as [->|[->| ->]]; simpl app.
      - rewrite Eb. simpl app. rewrite lstrip_head by assumption.
        apply split_sign_other; assumption.
      - rewrite lstrip_head by reflexivity. reflexivity.
      - rewrite lstrip_head by reflexivity. reflexivity. }
    rewrite E.
    destruct (scan_digits_complete body Hbody NoPrev 0%N ws2
                (spaces_stop ws2 Hws2)) as [n Hn].
    rewrite Hn. apply lstrip_nil in Hws2. rewrite Hws2. eauto.
Qed.

Lemma digit_run_chars b : digit_run b -> Forall int_char b.
Proof.
  assert (Hd : forall c, is_decimal c = true -> int_char c)
    by (unfold int_char; auto 6).
  assert (Hu : int_char 95%N) by (unfold int_char; auto).
  induction 1; repeat (constructor; auto).
Qed.

Lemma int_literal_chars s : int_literal s -> Forall int_char s.
Proof.
  intros (ws1 & sign & body & ws2 & -> & Hws1 & Hsign & Hbody & Hws2).
  repeat (apply Forall_app; split).
  - eapply Forall_impl; [|exact Hws1]. unfold int_char; auto.
  - destruct Hsign as [->|[->| ->]]; [constructor| |];
      (constructor; [unfold int_char; auto | constructor]).
  - apply digit_run_chars; assumption.
  - eapply Forall_impl; [|exact Hws2]. unfold int_char; auto.
Qed.








Lemma expand_size_strip s :
  expand_size s
  = match int_or_raise (strip_unit s) with
    | inr n =>
        inr (if endswith s (lit "M") then n * 1024 * 1024
             else if endswith s (lit "K") then n * 1024 else n)%Z
    | inl e => inl e
    end.
Proof.
  unfold expand_size, strip_unit.
  destruct (endswith s (lit "M")); simpl.
  - destruct (int_or_raise (drop_last s)); reflexivity.
  - destruct (endswith s (lit "K")); simpl;
      destruct (int_or_raise _); reflexivity.
Qed.

(** [int(str(n))] is [n]. *)









(** ** Properties of [expand_size] *)





(** ** What the throughput pattern matches *)

Lemma backtrack_some {A} (attempt : nat -> option A) n r :
  backtrack attempt n = Some r ->
  exists k, (1 <= k <= n)%nat /\ attempt k = Some r.
Proof.
  induction n as [|n IH]; simpl; [discriminate|].
  destruct (attempt (S n)) as [r'|] eqn:E.
  - intros [= ->]. exists (S n). split; [lia | assumption].
  - intros H. destruct (IH H) as (k & Hk & Hr). exists k.
    split; [lia | assumption].
Qed.

Lemma backtrack_first {A} (attempt : nat -> option A) n r :
  n <> 0%nat -> attempt n = Some r -> backtrack attempt n = Some r.
Proof.
  destruct n as [|n]; [congruence|]. intros _ H. simpl. rewrite H. reflexivity.
Qed.

Lemma count_while_firstn a s k :
  (k <= count_while a s)%nat ->
  Forall (fun c => atom_matches a c = true) (firstn k s) /\
  length (firstn k s) = k.
Proof.
  revert k; induction s as [|c s IH]; intros k; simpl.
  - intros Hk. assert (k = 0%nat) by lia. subst. simpl. auto.
  - destruct (atom_matches a c) eqn:E.
    + destruct k as [|k]; simpl; [auto|]. intros Hk.
      destruct (IH k) as [H1 H2]; [lia|].
      split; [constructor; assumption | lia].
    + intros Hk. assert (k = 0%nat) by lia. subst. simpl. auto.
Qed.

Lemma count_while_app a d s :
  Forall (fun c => atom_matches a c = true) d -> not_next a s ->
  count_while a (d ++ s) = length d.
Proof.
  induction 1 as [|c d Hc _ IH]; intros Hs; simpl.
  - destruct s as [|c s]; simpl in *; [reflexivity|]. rewrite Hs. reflexivity.
  - rewrite Hc, IH by assumption. reflexivity.
Qed.

Lemma match_literal_some w : forall r s pos gs ge res,
  match_here (literal w ++ r) s pos gs ge = Some res ->
  exists s', s = w ++ s' /\ match_here r s' (pos + length w) gs ge = Some res.
Proof.
  induction w as [|c w IH]; intros r s pos gs ge res; simpl.
  - intros H. exists s. rewrite Nat.add_0_r. auto.
  - destruct s as [|x s]; [discriminate|].
    destruct (N.eqb_spec x c) as [->|]; [|discriminate].
    intros H. apply IH in H. destruct H as (s' & -> & H).
    exists s'. split; [reflexivity|].
    replace (pos + S (length w))%nat with (S pos + length w)%nat by lia.
    assumption.
Qed.

Lemma match_literal_app w : forall r s pos gs ge,
  match_here (literal w ++ r) (w ++ s) pos gs ge
  = match_here r s (pos + length w) gs ge.
Proof.
  induction w as [|c w IH]; intros r s pos gs ge; simpl.
  - rewrite Nat.add_0_r. reflexivity.
  - rewrite N.eqb_refl, IH. f_equal. lia.
Qed.

Lemma match_plus_some a r s pos gs ge res :
  match_here (Plus a :: r) s pos gs ge = Some res ->
  exists d s', s = d ++ s' /\ d <> [] /\
    Forall (fun c => atom_matches a c = true) d /\
    match_here r s' (pos + length d) gs ge = Some res.
Proof.
  simpl. intros H. apply backtrack_some in H. destruct H as (k & Hk & H).
  destruct (count_while_firstn a s k) as [Hall Hlen]; [lia|].
  exists (firstn k s), (skipn k s). rewrite firstn_skipn, Hlen.
  repeat split; try assumption.
  intros E. rewrite E in Hlen. simpl in Hlen. lia.
Qed.

Lemma match_plus_app a r d s pos gs ge res :
  d <> [] -> Forall (fun c => atom_matches a c = true) d -> not_next a s ->
  match_here r s (pos + length d) gs ge = Some res ->
  match_here (Plus a :: r) (d ++ s) pos gs ge = Some res.
Proof.
  intros Hd Hall Hs H. simpl. rewrite count_while_app by assumption.
  apply backtrack_first.
  - destruct d; [congruence | discriminate].
  - rewrite skipn_app, Nat.sub_diag, skipn_all. assumption.
Qed.

Lemma THROUGHPUT_RE_eq :
  THROUGHPUT_RE
  = literal (lit " ")
    ++ Open :: Plus Digit
    :: literal (lit ".") ++ Plus Digit :: Close :: literal (lit "MiB/s") ++ [].
Proof. reflexivity. Qed.

(** Where the pattern matches, the text starts with a space, a reading and
    [MiB/s], and the group is the reading. *)
Lemma match_here_sound s e gs ge :
  match_here THROUGHPUT_RE s 0 0 0 = Some (e, gs, ge) ->
  exists x post, reading x /\ s = throughput_text x ++ post /\
    e = length (throughput_text x) /\ gs = 1%nat /\ ge = (1 + length x)%nat.
Proof.
  rewrite THROUGHPUT_RE_eq. intros H.
  apply match_literal_some in H. destruct H as (s1 & -> & H).
  cbn [match_here] in H.
  apply match_plus_some in H. destruct H as (d1 & s2 & -> & Hne1 & Hd1 & H).
  apply match_literal_some in H. destruct H as (s3 & -> & H).
  apply match_plus_some in H. destruct H as (d2 & s4 & -> & Hne2 & Hd2 & H).
  cbn [match_here] in H. fold (match_here (literal (lit "MiB/s") ++ [])) in H.
  apply match_literal_some in H. destruct H as (post & -> & H).
  simpl in H. injection H as <- <- <-.
  exists (d1 ++ lit "." ++ d2), post. split; [|split; [|split; [|split]]].
  - exists d1, d2. repeat split; assumption.
  - unfold throughput_text. rewrite <- !app_assoc. reflexivity.
  - unfold throughput_text, lit. simpl. rewrite !length_app. simpl. lia.
  - reflexivity.
  - unfold lit. simpl. rewrite !length_app. simpl. lia.
Qed.

(** The pattern matches at every occurrence of such a text. *)
Lemma match_here_complete x post :
  reading x ->
  match_here THROUGHPUT_RE (throughput_text x ++ post) 0 0 0
  = Some (length (throughput_text x), 1%nat, (1 + length x)%nat).
Proof.
  intros (d1 & d2 & [Hne1 Hd1] & [Hne2 Hd2] & ->).
  rewrite THROUGHPUT_RE_eq. unfold throughput_text. rewrite <- !app_assoc.
  rewrite match_literal_app. cbn [match_here].
  apply match_plus_app; try assumption; [reflexivity|].
  rewrite match_literal_app.
  apply match_plus_app; try assumption; [reflexivity|].
  cbn [match_here]. rewrite match_literal_app.
  unfold lit. simpl. repeat (rewrite !length_app; simpl).
  repeat match goal with
         | |- Some _ = Some _ => f_equal
         | |- (_, _) = (_, _) => f_equal
         end; lia.
Qed.

(** Every element of [findall] is the group of a match somewhere in the
    text. *)
Lemma findall_from_In r x : forall s skip,
  In x (findall_from r s skip) ->
  exists pre s' e gs ge,
    s = pre ++ s' /\ match_here r s' 0 0 0 = Some (e, gs, ge) /\
    x = firstn (ge - gs) (skipn gs s').
Proof.
  induction s as [|c s IH]; intros skip; simpl.
  - destruct skip; [|intros []].
    destruct (match_here r [] 0 0 0) as [[[e gs] ge]|] eqn:E; [|intros []].
    intros [<-|[]]. exists [], [], e, gs, ge. auto.
  - destruct skip as [|k].
    + destruct (match_here r (c :: s) 0 0 0) as [[[e gs] ge]|] eqn:E.
      * intros [<-|H].
        -- exists [], (c :: s), e, gs, ge. auto.
        -- apply IH in H. destruct H as (pre & s' & H).
           exists (c :: pre), s'. destruct H as (e' & gs' & ge' & -> & H).
           exists e', gs', ge'. auto.
      * intros H. apply IH in H. destruct H as (pre & s' & H).
        exists (c :: pre), s'. destruct H as (e' & gs' & ge' & -> & H).
        exists e', gs', ge'. auto.
    + intros H. apply IH in H. destruct H as (pre & s' & H).
      exists (c :: pre), s'. destruct H as (e' & gs' & ge' & -> & H).
      exists e', gs', ge'. auto.
Qed.

(** If [findall] finds nothing, the pattern matches nowhere. *)
Lemma findall_from_nil r : forall s skip,
  findall_from r s skip = [] ->
  forall pre s', s = pre ++ s' -> (skip <= length pre)%nat ->
  match_here r s' 0 0 0 = None.
Proof.
  induction s as [|c s IH]; intros skip H pre s' E Hskip.
  - symmetry in E. apply app_eq_nil in E. destruct E as [-> ->].
    simpl in Hskip. assert (skip = 0%nat) by lia. subst. simpl in H.
    destruct (match_here r [] 0 0 0) as [[[e gs] ge]|];
      [discriminate | reflexivity].
  - simpl in H. destruct skip as [|k].
    + destruct (match_here r (c :: s) 0 0 0) as [[[e gs] ge]|] eqn:Em;
        [discriminate|].
      destruct pre as [|c' pre]; simpl in E.
      * subst s'. assumption.
      * injection E as <- E. apply (IH 0%nat H pre s' E). lia.
    + destruct pre as [|c' pre]; simpl in Hskip; [lia|].
      simpl in E. injection E as <- E. apply (IH k H pre s' E). lia.
Qed.

(** [findall] with the throughput pattern returns readings that occur in
    the text after a space and before [MiB/s]. *)
Lemma findall_readings out x :
  In x (findall THROUGHPUT_RE out) ->
  reading x /\ occurs (throughput_text x) out.
Proof.
  intros H. apply findall_from_In in H.
  destruct H as (pre & s' & e & gs & ge & -> & Hm & ->).
  apply match_here_sound in Hm.
  destruct Hm as (x & post & Hx & -> & _ & -> & ->).
  assert (E : firstn (1 + length x - 1) (skipn 1 (throughput_text x ++ post))
              = x).
  { unfold throughput_text. simpl. rewrite Nat.sub_0_r.
    rewrite <- app_assoc. rewrite firstn_app, Nat.sub_diag, firstn_all.
    simpl. apply app_nil_r. }
  rewrite E. split; [assumption|]. exists pre, post. reflexivity.
Qed.

(** [findall] returns nothing exactly when no substring matches. *)
Lemma findall_nil out :
  findall THROUGHPUT_RE out = [] <-> ~ has_reading out.
Proof.
  split.
  - intros H (x & Hx & pre & post & ->).
    pose proof (findall_from_nil _ _ _ H pre (throughput_text x ++ post)
                  eq_refl (Nat.le_0_l _)) as Hn.
    rewrite match_here_complete in Hn by assumption. discriminate.
  - intros H. destruct (findall THROUGHPUT_RE out) as [|x m] eqn:E;
      [reflexivity|].
    exfalso. apply H. exists x. apply findall_readings. rewrite E.
    left; reflexivity.
Qed.

(** ** Floats of readings *)

Lemma read_digits_app d : Forall (fun c => is_decimal c = true) d ->
  forall acc rest, not_next Digit rest ->
  exists n, read_digits acc (d ++ rest) = (n, length d, rest).
Proof.
  induction 1 as [|c d Hc _ IH]; intros acc rest Hrest;
    cbn [app read_digits length].
  - exists acc. destruct rest as [|c rest]; [reflexivity|].
    simpl in *. unfold is_decimal in Hrest.
    destruct (to_decimal c); [discriminate | reflexivity].
  - apply is_decimal_true in Hc. destruct Hc as [v ->].
    destruct (IH (10 * acc + v)%N rest Hrest) as [n ->]. eauto.
Qed.

Lemma py_float_reading x : reading x -> exists f, py_float x = Some f.
Proof.
  intros (d1 & d2 & [Hne1 Hd1] & [Hne2 Hd2] & ->). unfold py_float.
  destruct (read_digits_app d1 Hd1 0%N (lit "." ++ d2) eq_refl) as [i ->].
  destruct d1 as [|c1 d1]; [congruence|]. simpl.
  destruct (read_digits_app d2 Hd2 i [] I) as [n Hn].
  rewrite app_nil_r in Hn. rewrite Hn.
  destruct d2 as [|c2 d2]; [congruence|]. simpl. eauto.
Qed.

Lemma floats_readings m :
  (forall x, In x m -> reading x) ->
  exists fs, floats m = inr fs /\ length fs = length m /\
    (forall f, In f fs -> exists x, In x m /\ py_float x = Some f) /\
    (forall x, In x m -> exists f, In f fs /\ py_float x = Some f).
Proof.
  induction m as [|x m IH]; intros H; simpl.
  - exists []. repeat split; intros ? [].
  - destruct (py_float_reading x) as [f Hf]; [apply H; left; reflexivity|].
    rewrite Hf.
    destruct IH as (fs & -> & Hlen & H1 & H2);
      [intros y Hy; apply H; right; assumption|].
    exists (f :: fs). simpl. repeat split; [congruence| |].
    + intros f' [<-|Hf']; [eauto|]. destruct (H1 f' Hf') as (y & Hy & E). eauto.
    + intros y [<-|Hy]; [eauto|]. destruct (H2 y Hy) as (f' & Hf' & E). eauto.
Qed.

(** Some values of [float]: 123.45 and 0.1 are rounded, 200.00 is exact,
    2^53 + 1 is a tie and goes to the even neighbour 2^53, 3e-324 goes to
    the smallest positive float, and 1e309 is too large. *)
Example py_float_values :
  py_float (lit "123.45") = Some (Finite (8687021468732621 * 2 ^ 1028)) /\
  py_float (lit "0.1") = Some (Finite (3602879701896397 * 2 ^ 1019)) /\
  py_float (lit "200.00") = Some (Finite (200 * 2 ^ 1074)) /\
  py_float (lit "9007199254740993.0") = Some (Finite (2 ^ 53 * 2 ^ 1074)) /\
  round_decimal 3 324 = Finite 1 /\
  round_decimal 1 0 = Finite (2 ^ 1074) /\
  round_decimal (10 ^ 309) 0 = Infinity.
Proof. vm_compute. repeat split; reflexivity. Qed.

(** ** The order of floats and [max] *)

Lemma float_le_refl a : float_le a a.
Proof.
  destruct a; unfold float_le; simpl; [apply N.ltb_irrefl | reflexivity].
Qed.

Lemma float_gt_le a b : float_gt a b = true -> float_le b a.
Proof.
  unfold float_le. destruct a, b; simpl; try discriminate; try reflexivity.
  rewrite N.ltb_lt, N.ltb_ge. lia.
Qed.

Lemma float_le_trans a b c : float_le a b -> float_le b c -> float_le a c.
Proof.
  unfold float_le. destruct a, b, c; simpl; try discriminate; try reflexivity.
  rewrite !N.ltb_ge. lia.
Qed.

Lemma fold_max_spec xs : forall m,
  let t := fold_left (fun m y => if float_gt y m then y else m) xs m in
  (t = m \/ In t xs) /\ float_le m t /\ (forall x, In x xs -> float_le x t).
Proof.
  induction xs as [|y xs IH]; intros m; simpl.
  - repeat split; [auto | apply float_le_refl | intros ? []].
  - destruct (float_gt y m) eqn:E.
    + destruct (IH y) as (H1 & H2 & H3). repeat split.
      * destruct H1 as [->|H1]; auto.
      * eapply float_le_trans; [apply float_gt_le; eassumption | assumption].
      * intros x [<-|Hx]; auto.
    + destruct (IH m) as (H1 & H2 & H3). repeat split.
      * destruct H1 as [->|H1]; auto.
      * assumption.
      * intros x [<-|Hx]; [|auto].
        eapply float_le_trans; [exact E | assumption].
Qed.

Lemma py_max_spec xs :
  xs <> [] ->
  exists t, py_max xs = Some t /\ In t xs /\ forall x, In x xs -> float_le x t.
Proof.
  destruct xs as [|x xs]; [congruence|]. intros _. simpl.
  destruct (fold_max_spec xs x) as (H1 & H2 & H3).
  eexists. split; [reflexivity|]. split.
  - destruct H1 as [->|H1]; auto.
  - intros y [<-|Hy]; auto.
Qed.

(** The result for a captured text: the error when nothing matches, and
    otherwise the largest of the floats of the readings found. *)
Lemma parse_throughput_spec out :
  (findall THROUGHPUT_RE out = [] /\
   parse_throughput out = inl (Exception (lit "No throughput found")))
  \/
  (findall THROUGHPUT_RE out <> [] /\
   exists t, parse_throughput out = inr t /\
     (exists x, In x (findall THROUGHPUT_RE out) /\ py_float x = Some t) /\
     (forall x, In x (findall THROUGHPUT_RE out) ->
        exists f, py_float x = Some f /\ float_le f t)).
Proof.
  unfold parse_throughput.
  destruct (findall THROUGHPUT_RE out) as [|x0 m] eqn:E; [left; auto|].
  right. split; [discriminate|].
  destruct (floats_readings (x0 :: m)) as (fs & Hfs & Hlen & H1 & H2).
  { intros x Hx. apply (findall_readings out). rewrite E. assumption. }
  rewrite Hfs.
  destruct (py_max_spec fs) as (t & Ht & Hin & Hmax).
  { intros ->. discriminate. }
  rewrite Ht. exists t. split; [reflexivity|]. split.
  - apply H1; assumption.
  - intros x Hx. destruct (H2 x Hx) as (f & Hf & Ef).
    exists f. split; [assumption | auto].
Qed.

(** ** Trials and sweeps in closed form *)

Section SweepProofs.

Variable subprocess : list (list str) -> list str -> str + str.

Lemma run_once_eq cmd n c st :
  run_once subprocess cmd n c st
  = (let argv := nth cmd (heap st) [] ++ flags n c in
     (mkState (heap st ++ [argv]) (stdout st) (calls st ++ [argv]),
      match subprocess (calls st) argv with
      | inr out => parse_throughput out
      | inl descr => inl (ProcessError descr)
      end)).
Proof.
  unfold run_once, bind, deref, new_list, check_output_decode, lift.
  cbn [heap stdout calls]. rewrite nth_middle.
  destruct (subprocess _ _); reflexivity.
Qed.

Lemma trial_eq cmd p c st :
  trial subprocess cmd p c st
  = (after_trial subprocess (nth cmd (heap st) []) p c st, inr tt).
Proof.
  unfold trial, after_trial, outcome, invoked, row, bind, try_except, lift.
  unfold write at 1. cbn [heap stdout calls fst snd].
  destruct (expand_size p) as [e|n].
  - unfold print, write. cbn [heap stdout calls result_line].
    rewrite !app_nil_r, <- app_assoc. reflexivity.
  - rewrite run_once_eq. cbn [heap stdout calls].
    destruct (subprocess _ _) as [descr|out].
    + unfold print, write. cbn [heap stdout calls result_line].
      rewrite <- app_assoc. reflexivity.
    + destruct (parse_throughput out) as [e|t];
        unfold print, write; cbn [heap stdout calls result_line];
        rewrite <- app_assoc; reflexivity.
Qed.

Lemma after_trial_heap template p c st l :
  (l < length (heap st))%nat ->
  nth l (heap (after_trial subprocess template p c st)) []
  = nth l (heap st) [] /\
  (l < length (heap (after_trial subprocess template p c st)))%nat.
Proof.
  intros H. unfold after_trial. cbn [heap]. rewrite app_nth1 by assumption.
  split; [reflexivity|]. rewrite length_app. lia.
Qed.

Lemma for_each_trials cmd p cs : forall st,
  (cmd < length (heap st))%nat ->
  for_each cs (trial subprocess cmd p) st
  = (after_trials subprocess (nth cmd (heap st) []) (map (pair p) cs) st,
     inr tt).
Proof.
  induction cs as [|c cs IH]; intros st Hcmd; [reflexivity|].
  cbn [for_each map]. unfold bind. rewrite trial_eq.
  destruct (after_trial_heap (nth cmd (heap st) []) p c st cmd Hcmd) as [E Hlt].
  rewrite IH by assumption. rewrite E. reflexivity.
Qed.

Lemma after_trials_app template a b st :
  after_trials subprocess template (a ++ b) st
  = after_trials subprocess template b (after_trials subprocess template a st).
Proof. apply fold_left_app. Qed.

Lemma after_trials_heap template trials : forall st l,
  (l < length (heap st))%nat ->
  nth l (heap (after_trials subprocess template trials st)) []
  = nth l (heap st) [] /\
  (l < length (heap (after_trials subprocess template trials st)))%nat.
Proof.
  induction trials as [|[p c] trials IH]; intros st l H; [auto|].
  unfold after_trials. cbn [fold_left fst snd].
  destruct (after_trial_heap template p c st l H) as [E Hlt].
  destruct (IH _ l Hlt) as [E' Hlt']. unfold after_trials in *.
  rewrite E', E. auto.
Qed.

Lemma for_each_sweep cmd cs ps : forall st,
  (cmd < length (heap st))%nat ->
  for_each ps (fun p => for_in (Some cs) (trial subprocess cmd p)) st
  = (after_trials subprocess (nth cmd (heap st) []) (list_prod ps cs) st,
     inr tt).
Proof.
  induction ps as [|p ps IH]; intros st Hcmd; [reflexivity|].
  cbn [for_each list_prod for_in]. unfold bind.
  rewrite for_each_trials by assumption.
  destruct (after_trials_heap (nth cmd (heap st) []) (map (pair p) cs) st cmd
              Hcmd) as [E Hlt].
  rewrite IH by assumption. rewrite E, after_trials_app. reflexivity.
Qed.

(** The state after a sequence of trials. *)
Lemma after_trials_eq template trials : forall st,
  after_trials subprocess template trials st
  = mkState (heap st ++ commands template trials)
            (stdout st ++ rows subprocess template trials (calls st))
            (calls st ++ commands template trials).
Proof.
  unfold after_trials, rows, commands.
  induction trials as [|[p c] trials IH]; intros st.
  - simpl. rewrite !app_nil_r. destruct st; reflexivity.
  - cbn [fold_left fst snd]. rewrite IH. unfold after_trial.
    cbn [heap stdout calls outcomes combine flat_map fst snd].
    rewrite <- !app_assoc. reflexivity.
Qed.

Lemma outcomes_length template trials : forall history,
  length (outcomes subprocess template trials history) = length trials.
Proof.
  induction trials as [|[p c] trials IH]; intros history; simpl; auto.
Qed.


(** [run_sweep] with both lists given. *)
Lemma run_sweep_eq ps cs cmd st :
  (cmd < length (heap st))%nat ->
  let template := nth cmd (heap st) [] in
  let trials := list_prod ps cs in
  run_sweep subprocess (mkNamespace (Some ps) (Some cs)) cmd st
  = (mkState (heap st ++ commands template trials)
             (stdout st ++ header :: rows subprocess template trials (calls st))
             (calls st ++ commands template trials),
     inr tt).
Proof.
  intros Hcmd template trials. unfold run_sweep, bind, print.
  unfold write at 1. cbn [part_size connections_per_vip for_in].
  match goal with
  | |- context [for_each ps ?f ?s] =>
      change (for_each ps f s)
        with (for_each ps
                (fun p => for_in (Some cs) (trial subprocess cmd p)) s)
  end.
  rewrite for_each_sweep by assumption. cbn [heap stdout calls].
  rewrite after_trials_eq. cbn [heap stdout calls].
  rewrite <- app_assoc. reflexivity.
Qed.

End SweepProofs.

(** ** [findall] finds every occurrence

    A match holds one space, its first character, so no occurrence starts
    inside a match. *)

Lemma decimal_not_32 d :
  Forall (fun c => is_decimal c = true) d -> ~ In 32%N d.
Proof.
  intros H Hin. rewrite Forall_forall in H. apply H in Hin.
  vm_compute in Hin. discriminate.
Qed.

Lemma reading_no_space x : reading x -> ~ In 32%N (x ++ lit "MiB/s").
Proof.
  intros (d1 & d2 & [_ H1] & [_ H2] & ->) Hin.
  rewrite !in_app_iff in Hin. destruct Hin as [[Hin|[Hin|Hin]]|Hin].
  - revert Hin. apply decimal_not_32; assumption.
  - simpl in Hin. destruct Hin as [Hin|[]]. discriminate.
  - revert Hin. apply decimal_not_32; assumption.
  - simpl in Hin. repeat (destruct Hin as [Hin|Hin]; [discriminate|]).
    destruct Hin.
Qed.

Lemma throughput_text_cons x :
  throughput_text x = 32%N :: (x ++ lit "MiB/s").
Proof. reflexivity. Qed.

Lemma firstn_length_app {A} (a b : list A) : firstn (length a) (a ++ b) = a.
Proof.
  rewrite firstn_app, Nat.sub_diag, firstn_all. simpl. apply app_nil_r.
Qed.

Lemma findall_from_complete x post : reading x -> forall pre skip,
  ~ In 32%N (firstn skip (pre ++ throughput_text x ++ post)) ->
  In x (findall_from THROUGHPUT_RE (pre ++ throughput_text x ++ post) skip).
Proof.
  intros Hx. pose proof (match_here_complete x post Hx) as Hm.
  rewrite (throughput_text_cons x) in *.
  induction pre as [|c pre IH]; intros skip Hskip.
  - destruct skip as [|k]; [|exfalso; apply Hskip; left; reflexivity].
    cbn [app] in *.
    cbn [findall_from]. rewrite Hm. left.
    cbn [skipn]. replace (1 + length x - 1)%nat with (length x) by lia.
    rewrite <- app_assoc. apply firstn_length_app.
  - cbn [app findall_from]. destruct skip as [|k].
    + match goal with
      | |- context [match_here ?r ?s 0 0 0] =>
          destruct (match_here r s 0 0 0) as [[[e gs] ge]|] eqn:Em
      end.
      * right. apply IH. apply match_here_sound in Em.
        destruct Em as (x' & post' & Hx' & E & -> & _ & _).
        rewrite (throughput_text_cons x') in E. cbn [app] in E.
        injection E as _ E. cbn [app]. rewrite E, (throughput_text_cons x').
        cbn [length]. rewrite Nat.sub_succ, Nat.sub_0_r, firstn_length_app.
        apply reading_no_space; assumption.
      * apply IH. simpl. auto.
    + apply IH. intros Hin. apply Hskip. cbn [app firstn]. right; assumption.
Qed.

Lemma findall_complete out x :
  reading x -> occurs (throughput_text x) out ->
  In x (findall THROUGHPUT_RE out).
Proof.
  intros Hx (pre & post & ->). apply findall_from_complete; [assumption|].
  simpl. auto.
Qed.

(** ** Properties of [run_once] *)

Lemma parse_throughput_no_reading out :
  ~ has_reading out ->
  parse_throughput out = inl (Exception (lit "No throughput found")).
Proof.
  intros H. apply findall_nil in H. unfold parse_throughput. rewrite H.
  reflexivity.
Qed.





(** With readings 1.5, 3.25 and 2.0 in this order the result is 3.25, the
    one in the middle. *)
Example run_once_middle_reading :
  snd (run_once bench_three 0 1 1 sample_state)
  = inr (Finite (13 * 2 ^ 1072)) /\
  py_float (lit "3.25") = Some (Finite (13 * 2 ^ 1072)) /\
  py_float (lit "1.5") = Some (Finite (3 * 2 ^ 1073)) /\
  py_float (lit "2.0") = Some (Finite (2 * 2 ^ 1074)).
Proof. vm_compute. repeat split; reflexivity. Qed.

Lemma reading_text_chars x :
  reading x -> In 32%N (throughput_text x) /\ In 46%N (throughput_text x).
Proof.
  intros (d1 & d2 & _ & _ & ->). rewrite throughput_text_cons. split.
  - left; reflexivity.
  - right. rewrite !in_app_iff. left. right. left. left. reflexivity.
Qed.

Lemma no_char_no_reading out :
  ~ In 32%N out \/ ~ In 46%N out -> ~ has_reading out.
Proof.
  intros H (x & Hx & pre & post & ->).
  destruct (reading_text_chars x Hx) as [H32 H46].
  destruct H as [H|H]; apply H; rewrite !in_app_iff; auto.
Qed.

(** C9. Whatever [findall] returns for the pattern stands in the text
    right after a space and right before [MiB/s] and has digits on both
    sides of a decimal point; so a text with no such substring, for
    instance one with no space or no point at all, makes the trial fail
    with "No throughput found". *)
Theorem pattern_needs_space_and_fraction :
  (forall out x, In x (findall THROUGHPUT_RE out) ->
     exists pre post d1 d2, digits d1 /\ digits d2 /\ x = d1 ++ lit "." ++ d2 /\
       out = pre ++ lit " " ++ x ++ lit "MiB/s" ++ post) /\
  (forall out, ~ In 32%N out \/ ~ In 46%N out -> ~ has_reading out) /\
  (forall subprocess cmd size c st out,
     subprocess (calls st) (nth cmd (heap st) [] ++ flags size c) = inr out ->
     ~ has_reading out ->
     snd (run_once subprocess cmd size c st)
     = inl (Exception (lit "No throughput found"))) /\
  (forall out, In out [lit "100MiB/s"; lit "123.45MiB/s"; lit " 100MiB/s";
                       lit "x123.45MiB/s"; lit " .5MiB/s"; lit " 5.MiB/s"] ->
     parse_throughput out = inl (Exception (lit "No throughput found"))).
Proof.
  split; [|split; [|split]].
  - intros out x H. apply findall_readings in H.
    destruct H as [(d1 & d2 & H1 & H2 & E) (pre & post & ->)].
    exists pre, post, d1, d2. unfold throughput_text.
    rewrite <- !app_assoc. auto.
  - exact no_char_no_reading.
  - intros subprocess cmd size c st out H Hn.
    rewrite run_once_eq. cbn [snd]. rewrite H.
    apply parse_throughput_no_reading; assumption.
  - intros out H. simpl in H.
    repeat (destruct H as [<-|H]; [vm_compute; reflexivity|]). destruct H.
Qed.

Lemma no_space_no_reading : ~ has_reading (lit "100MiB/s").
Proof.
  apply no_char_no_reading. left.
  simpl. intros H. repeat (destruct H as [H|H]; [discriminate|]). destruct H.
Qed.

Lemma pattern_needs_space_and_fraction_witness :
  snd (run_once bench_integer 0 1 1 sample_state)
  = inl (Exception (lit "No throughput found")).
Proof.
  exact (proj1 (proj2 (proj2 pattern_needs_space_and_fraction))
           bench_integer 0%nat 1%Z 1%Z sample_state (lit "100MiB/s")
           eq_refl no_space_no_reading).
Defined.

(** ** Properties of [run_sweep] and [main] *)

Lemma row_not_header trial o : ~ In header (row trial o).
Proof.
  unfold row, row_prefix, header. intros [H|[H|[]]]; [discriminate|].
  destruct o as [e|t]; simpl in H; [|discriminate].
  unfold failed_line in H. simpl in H. injection H as H. discriminate.
Qed.

Lemma rows_not_header (subprocess : list (list str) -> list str -> str + str)
    template trials history :
  ~ In header (rows subprocess template trials history).
Proof.
  unfold rows. rewrite in_flat_map. intros ([t o] & _ & H).
  revert H. apply row_not_header.
Qed.

Lemma run_sweep_no_sizes subprocess cs cmd st :
  run_sweep subprocess (mkNamespace None cs) cmd st
  = (with_header st, inl TypeError_not_iterable).
Proof. reflexivity. Qed.

Lemma run_sweep_empty subprocess cs cmd st :
  run_sweep subprocess (mkNamespace (Some []) cs) cmd st
  = (with_header st, inr tt).
Proof. reflexivity. Qed.

Lemma run_sweep_no_connections subprocess p ps cmd st :
  run_sweep subprocess (mkNamespace (Some (p :: ps)) None) cmd st
  = (with_header st, inl TypeError_not_iterable).
Proof. reflexivity. Qed.

(** The end-to-end example: part sizes 1M and 2M, 10 and 20 connections,
    a benchmark that prints 123.45 and 200.00 on every run.  Four rows,
    each with the tokens as given and the throughput 200.0. *)
Example sweep_end_to_end :
  main bench_two
    (mkNamespace (Some [lit "1M"; lit "2M"]) (Some [10; 20]%Z),
     [lit "--"; lit "download_crt"]) initial_state
  = (mkState
       [[lit "--"; lit "download_crt"]; [lit "download_crt"];
        [lit "download_crt"] ++ flags 1048576 10;
        [lit "download_crt"] ++ flags 1048576 20;
        [lit "download_crt"] ++ flags 2097152 10;
        [lit "download_crt"] ++ flags 2097152 20]
       [header;
        [Text (lit "1M" ++ tab ++ lit "10" ++ tab)];
        throughput_line (Finite (200 * 2 ^ 1074));
        [Text (lit "1M" ++ tab ++ lit "20" ++ tab)];
        throughput_line (Finite (200 * 2 ^ 1074));
        [Text (lit "2M" ++ tab ++ lit "10" ++ tab)];
        throughput_line (Finite (200 * 2 ^ 1074));
        [Text (lit "2M" ++ tab ++ lit "20" ++ tab)];
        throughput_line (Finite (200 * 2 ^ 1074))]
       [[lit "download_crt"] ++ flags 1048576 10;
        [lit "download_crt"] ++ flags 1048576 20;
        [lit "download_crt"] ++ flags 2097152 10;
        [lit "download_crt"] ++ flags 2097152 20],
     inr tt).
Proof. vm_compute. reflexivity. Qed.



(** C4, as the script has it.  A token that [expand_size] rejects raises
    inside the [try] of its trial: the row of every trial that uses the
    token reports [failed] with the error of [int], no command is invoked
    for it, the state is otherwise as before and the loop goes on; a sweep
    with both lists given returns without an exception whatever its
    tokens are. *)
Theorem malformed_token_is_reported subprocess :
  (forall cmd p c st e,
     expand_size p = inl e ->
     e = ValueError_int (strip_unit p) /\
     trial subprocess cmd p c st
     = (mkState (heap st)
                (stdout st ++ [row_prefix p c; failed_line e])
                (calls st),
        inr tt)) /\
  (forall ps cs cmd st,
     (cmd < length (heap st))%nat ->
     snd (run_sweep subprocess (mkNamespace (Some ps) (Some cs)) cmd st)
     = inr tt).
Proof.
  split.
  - intros cmd p c st e H. split.
    + rewrite expand_size_strip in H. unfold int_or_raise in H.
      destruct (py_int (strip_unit p)); congruence.
    + rewrite trial_eq. unfold after_trial, invoked, outcome, row.
      rewrite H. cbn [fst snd result_line]. rewrite !app_nil_r. reflexivity.
  - intros ps cs cmd st Hcmd. rewrite run_sweep_eq by assumption. reflexivity.
Qed.

Lemma malformed_token_is_reported_witness :
  trial bench_three 0 (lit "12x") 10 sample_state
  = (mkState (heap sample_state)
       [row_prefix (lit "12x") 10; failed_line (ValueError_int (lit "12x"))]
       [],
     inr tt) /\
  snd (run_sweep bench_three
         (mkNamespace (Some [lit "12x"; lit "1M"]) (Some [10; 20]%Z)) 0
         sample_state) = inr tt.
Proof.
  split.
  - exact (proj2 (proj1 (malformed_token_is_reported bench_three)
                    0%nat (lit "12x") 10%Z sample_state
                    (ValueError_int (lit "12x")) eq_refl)).
  - exact (proj2 (malformed_token_is_reported bench_three)
             [lit "12x"; lit "1M"] [10; 20]%Z 0%nat sample_state
             (Nat.lt_0_succ 0)).
Defined.

(** A run with the malformed token ["12x"] ends without an exception: the
    error is printed in the rows of the token and the next token is tried. *)
Lemma malformed_token_not_fatal :
  expand_size (lit "12x") = inl (ValueError_int (lit "12x")) /\
  snd malformed_run = inr tt /\
  stdout (fst malformed_run)
  = [header;
     row_prefix (lit "12x") 10; failed_line (ValueError_int (lit "12x"));
     row_prefix (lit "1M") 10; throughput_line (Finite (13 * 2 ^ 1072))] /\
  calls (fst malformed_run)
  = [[lit "download_crt"; lit "--part-size"; lit "1048576";
      lit "--connections-per-vip"; lit "10"]].
Proof. vm_compute. repeat split; reflexivity. Qed.

Lemma index_eq l i st :
  index l i st
  = (st, match nth_error (nth l (heap st) []) i with
         | Some x => inr x
         | None => inl IndexError_list
         end).
Proof.
  unfold index, bind, deref. destruct (nth_error _ i); reflexivity.
Qed.








Lemma list_prod_nth {A B} (cs : list B) j c :
  nth_error cs j = Some c ->
  forall (ps : list A) i p,
  nth_error ps i = Some p ->
  nth_error (list_prod ps cs) (i * length cs + j) = Some (p, c).
Proof.
  intros Hc. assert (Hj : (j < length cs)%nat).
  { apply nth_error_Some. congruence. }
  induction ps as [|p0 ps IH]; intros i p Hp; [destruct i; discriminate|].
  cbn [list_prod]. destruct i as [|i].
  - injection Hp as ->. cbn [Nat.mul Nat.add].
    rewrite nth_error_app1 by (rewrite length_map; assumption).
    rewrite nth_error_map, Hc. reflexivity.
  - cbn [nth_error] in Hp.
    rewrite nth_error_app2 by (rewrite length_map; simpl; lia).
    rewrite length_map.
    replace (S i * length cs + j - length cs)%nat with (i * length cs + j)%nat
      by (simpl; lia).
    apply IH; assumption.
Qed.

(** C7. The header is the first thing a sweep writes and it is written
    once; after it come the rows of the pairs, in the order of
    [list_prod]: all the connection counts for the first part size, in
    the order given, then those for the second, and so on. *)
Theorem sweep_header_and_order subprocess args cmd st :
  (cmd < length (heap st))%nat ->
  let final := run_sweep subprocess args cmd st in
  (exists written,
     stdout (fst final) = stdout st ++ header :: written /\
     ~ In header written) /\
  (forall ps cs, args = mkNamespace (Some ps) (Some cs) ->
     exists outs,
       length outs = length (list_prod ps cs) /\
       stdout (fst final)
       = stdout st
         ++ header
         :: flat_map (fun to => [row_prefix (fst (fst to)) (snd (fst to));
                                 result_line (snd to)])
                     (combine (list_prod ps cs) outs)) /\
  (forall (ps : list str) (cs : list Z),
     length (list_prod ps cs) = (length ps * length cs)%nat /\
     forall i j p c,
       nth_error ps i = Some p -> nth_error cs j = Some c ->
       nth_error (list_prod ps cs) (i * length cs + j) = Some (p, c)).
Proof.
  intros Hcmd final. subst final. split; [|split].
  - destruct args as [[[|p ps]|] [cs|]];
      try (exists []; split; [reflexivity | intros []]).
    rewrite run_sweep_eq by assumption. cbn [fst stdout].
    eexists. split; [reflexivity | apply rows_not_header].
  - intros ps cs ->. rewrite run_sweep_eq by assumption. cbn [fst stdout].
    eexists. split; [apply outcomes_length | reflexivity].
  - intros ps cs. split; [apply length_prod|].
    intros i j p c Hp Hc. eapply list_prod_nth; eassumption.
Qed.

Lemma sweep_header_and_order_witness :
  exists outs,
    length outs = 4%nat /\
    stdout (fst (run_sweep bench_three
                   (mkNamespace (Some [lit "1M"; lit "2M"]) (Some [10; 20]%Z))
                   0 sample_state))
    = [header;
       row_prefix (lit "1M") 10; result_line (nth 0 outs (inl ValueError_max));
       row_prefix (lit "1M") 20; result_line (nth 1 outs (inl ValueError_max));
       row_prefix (lit "2M") 10; result_line (nth 2 outs (inl ValueError_max));
       row_prefix (lit "2M") 20; result_line (nth 3 outs (inl ValueError_max))].
Proof.
  destruct (proj1 (proj2 (sweep_header_and_order bench_three
                            (mkNamespace (Some [lit "1M"; lit "2M"])
                                         (Some [10; 20]%Z))
                            0%nat sample_state (Nat.lt_0_succ 0)))
              [lit "1M"; lit "2M"] [10; 20]%Z eq_refl) as (outs & Hlen & H).
  exists outs. split; [exact Hlen|]. rewrite H. clear H.
  destruct outs as [|o1 [|o2 [|o3 [|o4 [|o5 outs]]]]];
    try discriminate Hlen.
  reflexivity.
Defined.

(** C8. [run_once] changes no list that exists when it is called: the
    command it runs is a new list, and the template is afterwards what it
    was, so a second trial starts from the same template. *)
Theorem run_once_keeps_template subprocess cmd size c st :
  let st' := fst (run_once subprocess cmd size c st) in
  heap st' = heap st ++ [nth cmd (heap st) [] ++ flags size c] /\
  (forall l, (l < length (heap st))%nat ->
     nth l (heap st') [] = nth l (heap st) []) /\
  (forall size' c',
     (cmd < length (heap st))%nat ->
     calls (fst (run_once subprocess cmd size' c' st'))
     = calls st ++ [nth cmd (heap st) [] ++ flags size c;
                    nth cmd (heap st) [] ++ flags size' c']).
Proof.
  intros st'. subst st'. rewrite run_once_eq. cbn [fst heap calls].
  split; [reflexivity|]. split.
  - intros l Hl. apply app_nth1; assumption.
  - intros size' c' Hcmd. rewrite run_once_eq. cbn [fst heap calls].
    rewrite app_nth1 by assumption. rewrite <- app_assoc. reflexivity.
Qed.

Lemma run_once_keeps_template_witness :
  nth 0 (heap (fst (run_once bench_three 0 1048576 10 sample_state))) []
  = [lit "download_crt"] /\
  calls (fst (run_once bench_three 0 2097152 20
                (fst (run_once bench_three 0 1048576 10 sample_state))))
  = [[lit "download_crt"] ++ flags 1048576 10;
     [lit "download_crt"] ++ flags 2097152 20].
Proof.
  pose proof (run_once_keeps_template bench_three 0%nat 1048576%Z 10%Z
                sample_state) as H.
  cbv zeta in H. destruct H as (_ & H1 & H2). split.
  - exact (H1 0%nat (Nat.lt_0_succ 0)).
  - exact (H2 2097152%Z 20%Z (Nat.lt_0_succ 0)).
Defined.

(** * Further properties of [expand_size] *)




Lemma drop_last_cons_app s c rest :
  rest <> [] -> exists rest', drop_last (s ++ c :: rest) = s ++ c :: rest'.
Proof.
  intros H. destruct (exists_last H) as (r & x & ->).
  exists r. change (s ++ c :: r ++ [x]) with (s ++ (c :: r) ++ [x]).
  rewrite app_assoc, drop_last_app. reflexivity.
Qed.

Lemma py_int_bad_char s c rest :
  ~ int_char c -> py_int (s ++ c :: rest) = None.
Proof.
  intros Hc. destruct (py_int (s ++ c :: rest)) as [n|] eqn:E; [|reflexivity].
  exfalso. apply Hc.
  assert (H : int_literal (s ++ c :: rest)) by (apply py_int_literal; eauto).
  apply int_literal_chars in H. apply Forall_app in H. destruct H as [_ H].
  inversion H; assumption.
Qed.

(** A unit letter counts only as the last character of the token: a
    character that [int] does not accept (a letter, [M] and [K] included,
    or a decimal point) anywhere before the last position makes
    [expand_size] raise.  So ["1KM"], ["5K "] and ["1.5M"] are rejected. *)
Theorem expand_size_rejects_inner s c rest :
  ~ int_char c -> rest <> [] ->
  expand_size (s ++ c :: rest)
  = inl (ValueError_int (strip_unit (s ++ c :: rest))).
Proof.
  intros Hc Hrest. rewrite expand_size_strip. unfold int_or_raise.
  assert (E : py_int (strip_unit (s ++ c :: rest)) = None).
  { unfold strip_unit.
    destruct (endswith _ (lit "M") || endswith _ (lit "K")).
    - destruct (drop_last_cons_app s c rest Hrest) as [rest' ->].
      apply py_int_bad_char; assumption.
    - apply py_int_bad_char; assumption. }
  rewrite E. reflexivity.
Qed.

Lemma letter_not_int_char c :
  In c [46; 75; 77]%N -> ~ int_char c.
Proof.
  intros H. simpl in H. unfold int_char.
  destruct H as [<-|[<-|[<-|[]]]]; vm_compute;
    intros [H|[H|[H|[H|H]]]]; discriminate.
Qed.

Lemma expand_size_rejects_inner_witness :
  expand_size (lit "1KM") = inl (ValueError_int (lit "1K")) /\
  expand_size (lit "5K ") = inl (ValueError_int (lit "5K ")) /\
  expand_size (lit "1.5M") = inl (ValueError_int (lit "1.5")).
Proof.
  split; [|split].
  - exact (expand_size_rejects_inner (lit "1") 75%N (lit "M")
             (letter_not_int_char 75%N ltac:(simpl; auto))
             ltac:(discriminate)).
  - exact (expand_size_rejects_inner (lit "5") 75%N (lit " ")
             (letter_not_int_char 75%N ltac:(simpl; auto))
             ltac:(discriminate)).
  - exact (expand_size_rejects_inner (lit "1") 46%N (lit "5M")
             (letter_not_int_char 46%N ltac:(simpl; auto))
             ltac:(discriminate)).
Defined.

Lemma digit_run_has_digit b :
  digit_run b -> exists c, In c b /\ is_decimal c = true.
Proof. destruct 1 as [c Hc|c s Hc _|c s Hc _]; exists c; simpl; auto. Qed.

Lemma int_literal_has_digit s :
  int_literal s -> exists c, In c s /\ is_decimal c = true.
Proof.
  intros (ws1 & sign & body & ws2 & -> & _ & _ & Hbody & _).
  destruct (digit_run_has_digit body Hbody) as (c & Hin & Hc).
  exists c. split; [|assumption]. rewrite !in_app_iff. auto.
Qed.

Lemma strip_unit_incl s c : In c (strip_unit s) -> In c s.
Proof.
  unfold strip_unit, drop_last.
  destruct (endswith s (lit "M") || endswith s (lit "K")); [|auto].
  intros H. rewrite <- (firstn_skipn (length s - 1) s).
  apply in_or_app. left; assumption.
Qed.

(** A token with no decimal digit is rejected: the empty token, a unit
    letter alone, a sign alone, white space. *)
Theorem expand_size_needs_digit s :
  (forall c, In c s -> is_decimal c = false) ->
  expand_size s = inl (ValueError_int (strip_unit s)).
Proof.
  intros H. rewrite expand_size_strip. unfold int_or_raise.
  destruct (py_int (strip_unit s)) as [n|] eqn:E; [|reflexivity].
  exfalso.
  assert (Hl : int_literal (strip_unit s)) by (apply py_int_literal; eauto).
  destruct (int_literal_has_digit _ Hl) as (c & Hin & Hc).
  apply strip_unit_incl in Hin. apply H in Hin. congruence.
Qed.

Lemma expand_size_needs_digit_witness :
  expand_size [] = inl (ValueError_int []) /\
  expand_size (lit "M") = inl (ValueError_int []) /\
  expand_size (lit "-K") = inl (ValueError_int (lit "-")).
Proof.
  split; [|split].
  - exact (expand_size_needs_digit [] (fun c H => match H with end)).
  - apply (expand_size_needs_digit (lit "M")). intros c [<-|[]]. reflexivity.
  - apply (expand_size_needs_digit (lit "-K")).
    intros c [<-|[<-|[]]]; reflexivity.
Defined.








(** * Further properties of the pattern and of [run_once] *)

(** [findall] with the throughput pattern returns the readings that stand
    in the text between a space and [MiB/s], all of them and nothing
    else. *)
Theorem findall_exact out x :
  In x (findall THROUGHPUT_RE out)
  <-> reading x /\ occurs (throughput_text x) out.
Proof.
  split.
  - apply findall_readings.
  - intros [Hx Ho]. apply findall_complete; assumption.
Qed.





Lemma float_le_antisym a b : float_le a b -> float_le b a -> a = b.
Proof.
  unfold float_le. destruct a, b; simpl; try discriminate; try reflexivity.
  rewrite !N.ltb_ge. intros. f_equal. lia.
Qed.

(** The result depends on the text only through the readings that occur
    in it: two texts with the same readings, in whatever order and
    number and with whatever else around them, give the same result. *)
Theorem same_readings_same_result out1 out2 :
  (forall x, reading x ->
     (occurs (throughput_text x) out1 <-> occurs (throughput_text x) out2)) ->
  parse_throughput out1 = parse_throughput out2.
Proof.
  intros H.
  assert (Hsub : forall a b,
    (forall x, reading x ->
       occurs (throughput_text x) a -> occurs (throughput_text x) b) ->
    forall t, parse_throughput a = inr t ->
    exists t', parse_throughput b = inr t' /\ float_le t t').
  { intros a b Hab t Ht.
    destruct (parse_throughput_spec a)
      as [[_ E]|[_ (t0 & E & (x & Hx & Hf) & _)]]; [congruence|].
    assert (t0 = t) by congruence. subst t0.
    destruct (findall_readings a x Hx) as [Hr Ho].
    assert (Hin : In x (findall THROUGHPUT_RE b))
      by (apply findall_complete; auto).
    destruct (parse_throughput_spec b)
      as [[Hnil _]|[_ (t' & E' & _ & Hmax)]].
    - rewrite Hnil in Hin. destruct Hin.
    - exists t'. split; [assumption|].
      destruct (Hmax x Hin) as (f & Hf' & Hle). congruence. }
  destruct (parse_throughput_spec out1) as [[Hn1 E1]|[_ (t1 & E1 & _)]].
  - destruct (parse_throughput_spec out2) as [[_ E2]|[_ (t2 & E2 & _)]];
      [congruence|].
    destruct (Hsub out2 out1 (fun x Hx => proj2 (H x Hx)) t2 E2)
      as (t' & E' & _). congruence.
  - destruct (Hsub out1 out2 (fun x Hx => proj1 (H x Hx)) t1 E1)
      as (t2 & E2 & H12).
    destruct (Hsub out2 out1 (fun x Hx => proj2 (H x Hx)) t2 E2)
      as (t1' & E1' & H21).
    assert (t1' = t1) by congruence. subst t1'.
    rewrite E1, E2. f_equal. apply float_le_antisym; assumption.
Qed.

Lemma same_findall_same_occurrences out1 out2 :
  (forall x, In x (findall THROUGHPUT_RE out1)
             <-> In x (findall THROUGHPUT_RE out2)) ->
  forall x, reading x ->
    (occurs (throughput_text x) out1 <-> occurs (throughput_text x) out2).
Proof.
  intros H x Hx. split; intros Ho.
  - apply (findall_readings out2 x). apply H.
    apply findall_complete; assumption.
  - apply (findall_readings out1 x). apply H.
    apply findall_complete; assumption.
Qed.

Lemma same_readings_same_result_witness :
  parse_throughput (lit " 1.0MiB/s 2.0MiB/s")
  = parse_throughput (lit "a 2.0MiB/s, 1.0MiB/s 2.0MiB/s b").
Proof.
  apply same_readings_same_result.
  apply same_findall_same_occurrences.
  intros x. vm_compute. tauto.
Defined.

(** * Further properties of [run_sweep] and [main] *)

Lemma for_each_app {A} (a b : list A) (body : A -> M unit) st :
  for_each (a ++ b) body st
  = match for_each a body st with
    | (st', inr _) => for_each b body st'
    | (st', inl e) => (st', inl e)
    end.
Proof.
  revert st. induction a as [|x a IH]; intros st; [reflexivity|].
  cbn [app for_each]. unfold bind.
  destruct (body x st) as [st' [e|u]]; [reflexivity|]. apply IH.
Qed.

Lemma for_each_trial_ok subprocess cmd p cs : forall st,
  snd (for_each cs (fun c => trial subprocess cmd p c) st) = inr tt.
Proof.
  induction cs as [|c cs IH]; intros st; [reflexivity|].
  cbn [for_each]. unfold bind. rewrite trial_eq. apply IH.
Qed.

Lemma for_each_sizes_ok subprocess cmd cs ps : forall st,
  snd (for_each ps (fun p => for_each cs (fun c => trial subprocess cmd p c))
         st) = inr tt.
Proof.
  induction ps as [|p ps IH]; intros st; [reflexivity|].
  cbn [for_each]. unfold bind.
  pose proof (for_each_trial_ok subprocess cmd p cs st) as H.
  destruct (for_each cs _ st) as [st' r]. cbn [snd] in H. subst r. apply IH.
Qed.

(** With no part size, or with no connection count, a sweep prints the
    header and nothing else, and runs nothing. *)
Theorem run_sweep_nothing_to_do subprocess cmd st :
  (forall cs,
     run_sweep subprocess (mkNamespace (Some []) cs) cmd st
     = (with_header st, inr tt)) /\
  (forall ps,
     run_sweep subprocess (mkNamespace (Some ps) (Some [])) cmd st
     = (with_header st, inr tt)).
Proof.
  split; [reflexivity|]. intros ps.
  assert (H : forall (body : str -> Z -> M unit) st0,
    for_each ps (fun p => for_in (Some []) (fun c => body p c)) st0
    = (st0, inr tt)).
  { intros body. induction ps as [|p ps IH]; intros st0; [reflexivity|].
    cbn [for_each for_in]. unfold bind. cbn [ret]. apply IH. }
  unfold run_sweep, bind, print. unfold write at 1.
  cbn [part_size connections_per_vip]. unfold for_in at 1.
  rewrite (H (trial subprocess cmd)). reflexivity.
Qed.

Lemma run_sweep_loops subprocess ps cs cmd st :
  run_sweep subprocess (mkNamespace (Some ps) (Some cs)) cmd st
  = for_each ps (fun p => for_each cs (fun c => trial subprocess cmd p c))
      (with_header st).
Proof. reflexivity. Qed.

(** A sweep over the part sizes [ps1 ++ ps2] is the sweep over [ps1]
    followed by the trials of [ps2], from the state the first has left and
    without a second header. *)
Theorem run_sweep_app subprocess ps1 ps2 cs cmd st :
  run_sweep subprocess (mkNamespace (Some (ps1 ++ ps2)) (Some cs)) cmd st
  = for_each ps2
      (fun p => for_each cs (fun c => trial subprocess cmd p c))
      (fst (run_sweep subprocess (mkNamespace (Some ps1) (Some cs)) cmd st)).
Proof.
  rewrite !run_sweep_loops, for_each_app.
  pose proof (for_each_sizes_ok subprocess cmd cs ps1 (with_header st)) as H.
  destruct (for_each ps1 _ (with_header st)) as [st' r].
  cbn [snd] in H. subst r. reflexivity.
Qed.

Lemma outcomes_stateless subprocess template trials :
  (forall h1 h2 argv, subprocess h1 argv = subprocess h2 argv) ->
  forall history,
  outcomes subprocess template trials history
  = map (fun t => outcome subprocess template (fst t) (snd t) []) trials.
Proof.
  intros H. induction trials as [|[p c] trials IH]; intros history;
    [reflexivity|].
  cbn [outcomes map fst snd]. rewrite IH. f_equal.
  unfold outcome. destruct (expand_size p); [reflexivity|].
  rewrite (H history []). reflexivity.
Qed.

Lemma flat_map_combine_map {A B C} (f : A -> B) (g : A * B -> list C) l :
  flat_map g (combine l (map f l)) = flat_map (fun a => g (a, f a)) l.
Proof.
  induction l as [|a l IH]; [reflexivity|]. simpl. rewrite IH. reflexivity.
Qed.

(** With a benchmark whose result depends on its arguments only, every
    row depends on its own pair only: what a trial prints is what it
    would print as the first trial, whatever ran and failed before it. *)
Theorem stateless_rows subprocess ps cs cmd st :
  (forall h1 h2 argv, subprocess h1 argv = subprocess h2 argv) ->
  (cmd < length (heap st))%nat ->
  stdout (fst (run_sweep subprocess (mkNamespace (Some ps) (Some cs)) cmd st))
  = stdout st
    ++ header
    :: flat_map
         (fun t => row t (outcome subprocess (nth cmd (heap st) [])
                            (fst t) (snd t) []))
         (list_prod ps cs).
Proof.
  intros H Hcmd. rewrite run_sweep_eq by assumption. cbn [fst stdout].
  unfold rows. rewrite outcomes_stateless by assumption.
  rewrite (flat_map_combine_map
             (fun t => outcome subprocess (nth cmd (heap st) [])
                         (fst t) (snd t) [])
             (fun to => row (fst to) (snd to))).
  reflexivity.
Qed.

Lemma stateless_rows_witness :
  stdout (fst (run_sweep bench_two
                 (mkNamespace (Some [lit "1M"; lit "x"]) (Some [10]%Z)) 0
                 sample_state))
  = [header;
     row_prefix (lit "1M") 10;
     result_line (outcome bench_two [lit "download_crt"] (lit "1M") 10 []);
     row_prefix (lit "x") 10;
     result_line (outcome bench_two [lit "download_crt"] (lit "x") 10 [])].
Proof.
  exact (stateless_rows bench_two [lit "1M"; lit "x"] [10]%Z 0%nat
           sample_state (fun _ _ _ => eq_refl) (Nat.lt_0_succ 0)).
Defined.

(** Without the separator at the head of the left-over arguments [main]
    prints nothing and runs nothing. *)
Theorem main_stops_without_separator subprocess args extras st :
  hd_error extras <> Some (lit "--") ->
  stdout (fst (main subprocess (args, extras) st)) = stdout st /\
  calls (fst (main subprocess (args, extras) st)) = calls st.
Proof.
  intros H.
  assert (E : fst (main subprocess (args, extras) st)
              = mkState (heap st ++ [extras]) (stdout st) (calls st)).
  { unfold main, bind. unfold new_list at 1. rewrite index_eq.
    cbn [heap stdout calls]. rewrite nth_middle.
    destruct extras as [|first rest]; [reflexivity|]. cbn [nth_error].
    destruct (str_eqb first (lit "--")) eqn:E; [|reflexivity].
    apply str_eqb_eq in E. subst first. exfalso. apply H. reflexivity. }
  rewrite E. split; reflexivity.
Qed.

Lemma main_stops_without_separator_witness :
  stdout (fst (main bench_two
                 (mkNamespace (Some [lit "1M"]) (Some [10]%Z),
                  [lit "download_crt"; lit "--"]) initial_state)) = [] /\
  calls (fst (main bench_two
                (mkNamespace (Some [lit "1M"]) (Some [10]%Z),
                 [lit "download_crt"; lit "--"]) initial_state)) = [].
Proof.
  exact (main_stops_without_separator bench_two
           (mkNamespace (Some [lit "1M"]) (Some [10]%Z))
           [lit "download_crt"; lit "--"] initial_state
           ltac:(discriminate)).
Defined.





(** * Further properties of [float] on readings *)

Lemma read_digits_exact d : Forall (fun c => is_decimal c = true) d ->
  forall acc rest, not_next Digit rest ->
  read_digits acc (d ++ rest) = (decimal_fold acc d, length d, rest).
Proof.
  unfold decimal_fold.
  induction 1 as [|c d Hc _ IH]; intros acc rest Hrest;
    cbn [app read_digits length fold_left].
  - destruct rest as [|c rest]; [reflexivity|].
    simpl in Hrest. unfold is_decimal in Hrest. cbn [read_digits].
    destruct (to_decimal c); [discriminate | reflexivity].
  - apply is_decimal_true in Hc. destruct Hc as [v ->].
    rewrite IH by assumption. reflexivity.
Qed.

Lemma py_float_reading_eq d1 d2 :
  digits d1 -> digits d2 ->
  py_float (d1 ++ lit "." ++ d2)
  = Some (round_decimal (decimal_fold (decimal_fold 0 d1) d2) (length d2)).
Proof.
  intros [Hn1 H1] [Hn2 H2]. unfold py_float.
  rewrite (read_digits_exact d1 H1 0%N (lit "." ++ d2) eq_refl).
  destruct d1 as [|c1 d1]; [congruence|]. cbn [length app lit map
    list_ascii_of_string].
  change (N_of_ascii ".") with 46%N. cbn iota.
  pose proof (read_digits_exact d2 H2 (decimal_fold 0 (c1 :: d1)) [] I) as E.
  rewrite app_nil_r in E. rewrite E.
  destruct d2 as [|c2 d2]; [congruence|]. reflexivity.
Qed.

Lemma round_decimal_scale n k :
  round_decimal (10 * n) (S k) = round_decimal n k.
Proof.
  unfold round_decimal.
  set (a := (n * 2 ^ 1074)%N). set (b := (10 ^ N.of_nat k)%N).
  assert (Hb : b <> 0%N) by (apply N.pow_nonzero; discriminate).
  replace (10 * n * 2 ^ 1074)%N with (10 * a)%N by (unfold a; ring).
  replace (10 ^ N.of_nat (S k))%N with (10 * b)%N
    by (unfold b; rewrite Nat2N.inj_succ, N.pow_succ_r'; reflexivity).
  rewrite (N.Div0.div_mul_cancel_l a b 10) by discriminate.
  set (s := (N.log2 (a / b) - 52)%N).
  set (d := (b * 2 ^ s)%N).
  replace (10 * b * 2 ^ s)%N with (10 * d)%N by (unfold d; ring).
  rewrite (N.Div0.div_mul_cancel_l a d 10) by discriminate.
  rewrite (N.Div0.mul_mod_distr_l a d 10).
  set (r := (a mod d)%N).
  replace (2 * (10 * r) <? 10 * d)%N with (2 * r <? d)%N.
  2:{ destruct (N.ltb_spec (2 * r) d), (N.ltb_spec (2 * (10 * r)) (10 * d));
        try reflexivity; lia. }
  replace (2 * (10 * r) =? 10 * d)%N with (2 * r =? d)%N.
  2:{ destruct (N.eqb_spec (2 * r) d), (N.eqb_spec (2 * (10 * r)) (10 * d));
        try reflexivity; lia. }
  reflexivity.
Qed.

Lemma zeros_decimal zs :
  Forall (fun c => c = 48%N) zs -> Forall (fun c => is_decimal c = true) zs.
Proof. apply Forall_impl. intros c ->. reflexivity. Qed.

Lemma decimal_fold_app acc a b :
  decimal_fold acc (a ++ b) = decimal_fold (decimal_fold acc a) b.
Proof. apply fold_left_app. Qed.

Lemma decimal_fold_leading_zeros zs :
  Forall (fun c => c = 48%N) zs -> decimal_fold 0 zs = 0%N.
Proof.
  induction 1 as [|c zs -> _ IH]; [reflexivity|]. exact IH.
Qed.

Lemma round_decimal_trailing_zeros zs :
  Forall (fun c => c = 48%N) zs -> forall n k,
  round_decimal (decimal_fold n zs) (k + length zs) = round_decimal n k.
Proof.
  induction 1 as [|c zs -> _ IH]; intros n k.
  - simpl. rewrite Nat.add_0_r. reflexivity.
  - cbn [length]. rewrite Nat.add_succ_r, <- Nat.add_succ_l.
    change (decimal_fold n (48%N :: zs))
      with (decimal_fold (10 * n + 0) zs).
    rewrite IH, N.add_0_r. apply round_decimal_scale.
Qed.

(** Zeros before a reading and after its last digit do not change its
    float: [007.50] and [7.5] are the same throughput. *)
Theorem py_float_padding zs1 d1 d2 zs2 :
  Forall (fun c => c = 48%N) zs1 -> Forall (fun c => c = 48%N) zs2 ->
  digits d1 -> digits d2 ->
  py_float ((zs1 ++ d1) ++ lit "." ++ (d2 ++ zs2))
  = py_float (d1 ++ lit "." ++ d2).
Proof.
  intros Hz1 Hz2 [Hn1 H1] [Hn2 H2].
  rewrite !py_float_reading_eq.
  - rewrite !decimal_fold_app, decimal_fold_leading_zeros by assumption.
    rewrite length_app, round_decimal_trailing_zeros by assumption.
    reflexivity.
  - split; assumption.
  - split; assumption.
  - split.
    + intros E. apply app_eq_nil in E. destruct E; congruence.
    + apply Forall_app. split; [apply zeros_decimal|]; assumption.
  - split.
    + intros E. apply app_eq_nil in E. destruct E; congruence.
    + apply Forall_app. split; [|apply zeros_decimal]; assumption.
Qed.

Lemma py_float_padding_witness :
  py_float ((lit "00" ++ lit "7") ++ lit "." ++ (lit "5" ++ lit "0"))
  = py_float (lit "7" ++ lit "." ++ lit "5").
Proof.
  apply py_float_padding.
  - repeat constructor.
  - repeat constructor.
  - split; [discriminate | repeat constructor].
  - split; [discriminate | repeat constructor].
Defined.
